(** * Deck tracker: state machine, undo history and voice matcher

    Shallow embedding of [DeckTracker] (the voice-enabled script and its
    text-only sibling [script.js]) and the properties of its deck state
    machine, bounded undo history, fuzzy card matcher and voice command
    interpreter.

    Modelling conventions.
    - JavaScript strings are [string]s of characters with codes below 128;
      [toLowerCase], [trim] and the regular expression class [\b] act on
      those codes as ECMAScript prescribes for ASCII.
    - The card objects held by deck slots live in an explicit object store
      ([heap]); a slot holds [None] (null) or the address of an object, so
      in-place mutation ([card.isEvo = !card.isEvo]) and the deep copies
      made by [JSON.parse(JSON.stringify(deck))] are both visible.
    - Array positions are integers ([Z]): [parseInt] may hand any number to
      the handlers and [findIndex] answers [-1] when nothing matches.
    - DOM rendering is outside the model; console output, notifications
      and calls of the matcher are recorded as [Event]s by the voice
      layer. *)

From Stdlib Require Import ZArith Ascii String.
From stdpp Require Import base list strings.

Local Open Scope Z_scope.

(** ** String primitives of the host language *)

Module JS.

Definition code (c : ascii) : N := N_of_ascii c.

Definition inRange (lo hi : N) (c : ascii) : bool :=
  ((lo <=? code c) && (code c <=? hi))%N.

Definition isUpper : ascii → bool := inRange 65 90.
Definition isLower : ascii → bool := inRange 97 122.
Definition isDigit : ascii → bool := inRange 48 57.

(** [String.prototype.toLowerCase] *)
Definition lowerChar (c : ascii) : ascii :=
  if isUpper c then ascii_of_N (code c + 32) else c.

Fixpoint toLowerCase (s : string) : string :=
  match s with
  | EmptyString => EmptyString
  | String c s' => String (lowerChar c) (toLowerCase s')
  end.

(** White space and line terminators: TAB, LF, VT, FF, CR, SP. *)
Definition isWhiteSpace (c : ascii) : bool :=
  inRange 9 13 c || (code c =? 32)%N.

Fixpoint trimStart (s : string) : string :=
  match s with
  | EmptyString => EmptyString
  | String c s' => if isWhiteSpace c then trimStart s' else s
  end.

Fixpoint trimEnd (s : string) : string :=
  match s with
  | EmptyString => EmptyString
  | String c s' =>
      match trimEnd s' with
      | EmptyString => if isWhiteSpace c then EmptyString else String c EmptyString
      | t => String c t
      end
  end.

(** [String.prototype.trim] *)
Definition trim (s : string) : string := trimEnd (trimStart s).

(** [s.startsWith(p)] *)
Fixpoint startsWith (s p : string) : bool :=
  match p with
  | EmptyString => true
  | String b p' =>
      match s with
      | EmptyString => false
      | String a s' => Ascii.eqb a b && startsWith s' p'
      end
  end.

(** [s.includes(sub)] *)
Fixpoint includes (s sub : string) : bool :=
  startsWith s sub ||
  match s with
  | EmptyString => false
  | String _ s' => includes s' sub
  end.

(** [s.substring(n)] *)
Fixpoint substring (n : nat) (s : string) : string :=
  match n, s with
  | O, _ => s
  | S _, EmptyString => EmptyString
  | S n', String _ s' => substring n' s'
  end.

(** The class [\w]: letters, digits and the underscore. *)
Definition isWordChar (c : ascii) : bool :=
  isUpper c || isLower c || isDigit c || (code c =? 95)%N.

Definition isWord (c : option ascii) : bool :=
  match c with Some a => isWordChar a | None => false end.

(** The assertion [\b] between the character before a position and the
    character at it ([None] past either end of the input). *)
Definition wordBoundary (prev next : option ascii) : bool :=
  xorb (isWord prev) (isWord next).

Definition charAt (n : nat) (s : string) : option ascii := String.get n s.

(** One alternative [w] of the group, followed by [\b]. *)
Definition alternativeAt (w s : string) : option nat :=
  let n := String.length w in
  if startsWith s w &&
     wordBoundary (match n with O => None | S k => charAt k s end) (charAt n s)
  then Some n else None.

(** An attempt of [/\b(the|a|an)\b/] at one position; [prev] is the
    character before the position.  The alternatives are tried in the
    order they are written; the answer is the length of the match. *)
Definition stopwordAt (prev : option ascii) (s : string) : option nat :=
  if wordBoundary prev (charAt 0 s) then
    match alternativeAt "the" s with
    | Some n => Some n
    | None =>
        match alternativeAt "a" s with
        | Some n => Some n
        | None => alternativeAt "an" s
        end
    end
  else None.

(** [s.replace(/\b(the|a|an)\b/g, '')], scanning left to right: [skip]
    counts the characters of the current match still to be dropped. *)
Fixpoint replaceFrom (prev : option ascii) (skip : nat) (s : string) : string :=
  match s with
  | EmptyString => EmptyString
  | String c rest =>
      match skip with
      | S k => replaceFrom (Some c) k rest
      | O =>
          match stopwordAt prev s with
          | Some (S k) => replaceFrom (Some c) k rest
          | _ => String c (replaceFrom (Some c) O rest)
          end
      end
  end.

Definition replaceStopwords (s : string) : string := replaceFrom None O s.

End JS.

(** ** Card catalog *)

(** A card of [cards.json]; [alternatives] is optional. *)
Record CardRecord := {
  name : string;
  image : string;
  alternatives : option (list string)
}.

(** [this.cards]: the elixir-cost groups in the order [for ... in]
    enumerates the keys of the parsed document. *)
Abbreviation Catalog := (list (string * list CardRecord)).

(** Every card, group after group. *)
Definition allCards (cards : Catalog) : list CardRecord :=
  concat (map snd cards).

(** ** Fuzzy matcher *)

(** [for (const card of this.cards[elixirCost]) { if (hit) return card; }] *)
Fixpoint scanGroup (hit : CardRecord → bool) (group : list CardRecord)
  : option CardRecord :=
  match group with
  | [] => None
  | card :: rest => if hit card then Some card else scanGroup hit rest
  end.

(** [for (const elixirCost in this.cards) { ... }] around the loop above. *)
Fixpoint scanCards (hit : CardRecord → bool) (cards : Catalog)
  : option CardRecord :=
  match cards with
  | [] => None
  | (_, group) :: rest =>
      match scanGroup hit group with
      | Some card => Some card
      | None => scanCards hit rest
      end
  end.

(** [for (const alt of card.alternatives) { if (hit) return card; }] *)
Fixpoint scanAlternatives (hit : string → bool) (alts : list string) : bool :=
  match alts with
  | [] => false
  | alt :: rest => if hit alt then true else scanAlternatives hit rest
  end.

(** [if (card.alternatives) { for ... }] *)
Definition viaAlternatives (hit : string → bool) (card : CardRecord) : bool :=
  match alternatives card with
  | Some alts => scanAlternatives hit alts
  | None => false
  end.

Definition exactName (spoken : string) (card : CardRecord) : bool :=
  String.eqb (JS.toLowerCase (name card)) spoken.

Definition exactAlternative (spoken : string) : CardRecord → bool :=
  viaAlternatives (fun alt => String.eqb (JS.toLowerCase alt) spoken).

Definition partialName (spoken : string) (card : CardRecord) : bool :=
  JS.includes (JS.toLowerCase (name card)) spoken ||
  JS.includes spoken (JS.toLowerCase (name card)).

Definition partialAlternative (spoken : string) : CardRecord → bool :=
  viaAlternatives (fun alt =>
    JS.includes (JS.toLowerCase alt) spoken ||
    JS.includes spoken (JS.toLowerCase alt)).

Definition fuzzyName (cleanSpoken : string) (card : CardRecord) : bool :=
  let cleanCardName :=
    JS.trim (JS.replaceStopwords (JS.toLowerCase (name card))) in
  JS.includes cleanCardName cleanSpoken || JS.includes cleanSpoken cleanCardName.

(** [findBestCardMatch(spokenName)]; [None] is the [null] result. *)
Definition findBestCardMatch (cards : Catalog) (spokenName : string)
  : option CardRecord :=
  let spoken := JS.trim (JS.toLowerCase spokenName) in
  match scanCards (exactName spoken) cards with
  | Some card => Some card
  | None =>
  match scanCards (exactAlternative spoken) cards with
  | Some card => Some card
  | None =>
  match scanCards (partialName spoken) cards with
  | Some card => Some card
  | None =>
  match scanCards (partialAlternative spoken) cards with
  | Some card => Some card
  | None =>
      let cleanSpoken := JS.trim (JS.replaceStopwords spoken) in
      scanCards (fuzzyName cleanSpoken) cards
  end end end end.

(** ** Deck state machine *)

(** Address of a card object. *)
Abbreviation loc := nat.

(** The object a deck slot refers to: [{ ...card, isEvo }]. *)
Record DeckSlotCard := {
  card : CardRecord;
  isEvo : bool
}.

Abbreviation Heap := (list DeckSlotCard).

(** An array of slots: [None] is [null], [Some l] a reference. *)
Abbreviation Deck := (list (option loc)).

(** The fields of a [DeckTracker] instance, with the object store. *)
Record DeckTracker := {
  cards : Catalog;
  heap : Heap;
  deck : Deck;
  history : list Deck;
  selectedElixir : option string
}.

(** State after the constructor has run and before [cards.json] arrives. *)
Definition initial : DeckTracker := {|
  cards := [];
  heap := [];
  deck := replicate 8 None;
  history := [];
  selectedElixir := None
|}.

(** [this.cards = await response.json()] *)
Definition loadCards (json : Catalog) (t : DeckTracker) : DeckTracker :=
  {| cards := json; heap := heap t; deck := deck t;
     history := history t; selectedElixir := selectedElixir t |}.

(** [this.deck[position]] read as a condition or a reference: [None] when
    the slot is [null] or the index is outside the array. *)
Definition deckAt (d : Deck) (position : Z) : option loc :=
  if position <? 0 then None else mjoin (d !! Z.to_nat position).

(** [JSON.parse(JSON.stringify(deck))]: a new array whose occupied slots
    refer to newly allocated copies of the objects.  A reference to no
    object does not arise in the source (see [validDeck]); the function is
    made total by copying it as [null]. *)
Fixpoint jsonClone (h : Heap) (d : Deck) : Heap * Deck :=
  match d with
  | [] => (h, [])
  | None :: rest =>
      let '(h', copy) := jsonClone h rest in (h', None :: copy)
  | Some l :: rest =>
      match h !! l with
      | Some o =>
          let '(h', copy) := jsonClone (h ++ [o]) rest in
          (h', Some (length h) :: copy)
      | None =>
          let '(h', copy) := jsonClone h rest in (h', None :: copy)
      end
  end.

(** [if (history.length > 10) { history.shift(); }] *)
Definition shiftOverflow {A} (hist : list A) : list A :=
  if (10 <? length hist)%nat then drop 1 hist else hist.

(** [saveState()] *)
Definition saveState (t : DeckTracker) : DeckTracker :=
  let '(h', snapshot) := jsonClone (heap t) (deck t) in
  {| cards := cards t;
     heap := h';
     deck := deck t;
     history := shiftOverflow (history t ++ [snapshot]);
     selectedElixir := selectedElixir t |}.

(** [cycleCard(position)] *)
Definition cycleCard (position : Z) (t : DeckTracker) : DeckTracker :=
  match deckAt (deck t) position with
  | None => t
  | Some card =>
      let t1 := saveState t in
      let spliced := delete (Z.to_nat position) (deck t1) in
      let pushed := spliced ++ [Some card] in
      {| cards := cards t1;
         heap := heap t1;
         deck := if (8 <? length pushed)%nat
                 then drop (length pushed - 8) pushed else pushed;
         history := history t1;
         selectedElixir := selectedElixir t1 |}
  end.

(** [deckCard && deckCard.name === card.name] *)
Definition sameName (h : Heap) (cardName : string) (slot : option loc) : bool :=
  match slot with
  | Some l =>
      match h !! l with
      | Some deckCard => String.eqb (name (card deckCard)) cardName
      | None => false
      end
  | None => false
  end.

(** [deck.findIndex(...)], counting from [i]. *)
Fixpoint findIndexFrom (i : Z) (hit : option loc → bool) (d : Deck) : Z :=
  match d with
  | [] => -1
  | slot :: rest => if hit slot then i else findIndexFrom (i + 1) hit rest
  end.

Definition findIndex (hit : option loc → bool) (d : Deck) : Z :=
  findIndexFrom 0 hit d.

(** [hideCardSelection()], as far as the tracker's fields go. *)
Definition hideCardSelection (t : DeckTracker) : DeckTracker :=
  {| cards := cards t; heap := heap t; deck := deck t;
     history := history t; selectedElixir := None |}.

(** [selectCard(card)] *)
Definition selectCard (c : CardRecord) (t : DeckTracker) : DeckTracker :=
  let t1 := saveState t in
  let existingIndex := findIndex (sameName (heap t1) (name c)) (deck t1) in
  let t2 :=
    if negb (existingIndex =? -1) then cycleCard existingIndex t1
    else
      {| cards := cards t1;
         heap := heap t1 ++ [{| card := c; isEvo := false |}];
         deck := drop 1 (deck t1) ++ [Some (length (heap t1))];
         history := history t1;
         selectedElixir := selectedElixir t1 |} in
  hideCardSelection t2.

(** [selectElixir(elixir)] *)
Definition selectElixir (elixir : string) (t : DeckTracker) : DeckTracker :=
  let t1 := saveState t in
  {| cards := cards t1; heap := heap t1; deck := deck t1;
     history := history t1; selectedElixir := Some elixir |}.

(** [card.isEvo = !card.isEvo] on the object at [l]. *)
Definition flipEvo (o : DeckSlotCard) : DeckSlotCard :=
  {| card := card o; isEvo := negb (isEvo o) |}.

Definition assignIsEvo (l : loc) (t : DeckTracker) : DeckTracker :=
  {| cards := cards t; heap := alter flipEvo l (heap t); deck := deck t;
     history := history t; selectedElixir := selectedElixir t |}.

(** The [drop] listener of a card slot; [data] is what the drag carries. *)
Definition dropOnSlot (position : Z) (data : string) (t : DeckTracker)
  : DeckTracker :=
  match deckAt (deck t) position with
  | Some l =>
      if String.eqb data "evo" then assignIsEvo l (saveState t) else t
  | None => t
  end.

(** The [click] listener of a card slot. *)
Definition clickSlot (position : Z) (t : DeckTracker) : DeckTracker :=
  match deckAt (deck t) position with
  | Some _ => cycleCard position t
  | None => t
  end.

(** [undo()] *)
Definition undo (t : DeckTracker) : DeckTracker :=
  match last (history t) with
  | Some snapshot =>
      {| cards := cards t; heap := heap t; deck := snapshot;
         history := take (length (history t) - 1) (history t);
         selectedElixir := selectedElixir t |}
  | None => t
  end.

(** ** Voice command interpreter *)

Inductive Event :=
| ConsoleLog (message : string)
| MatcherCalled (spokenName : string)
| Notification (message : string).

(** [addCardByVoice(spokenCardName)] *)
Definition addCardByVoice (spokenCardName : string) (t : DeckTracker)
  : DeckTracker * list Event :=
  match findBestCardMatch (cards t) spokenCardName with
  | Some matchedCard =>
      (selectCard matchedCard t,
       [MatcherCalled spokenCardName;
        ConsoleLog ("Adding card: " +:+ name matchedCard);
        Notification ("Added: " +:+ name matchedCard)])
  | None =>
      (t,
       [MatcherCalled spokenCardName;
        ConsoleLog ("Card not found: " +:+ spokenCardName);
        Notification ("Card not found: " +:+ spokenCardName)])
  end.

(** [processVoiceCommand(transcript)] *)
Definition processVoiceCommand (transcript : string) (t : DeckTracker)
  : DeckTracker * list Event :=
  let logged := ConsoleLog ("Voice command: " +:+ transcript) in
  if JS.startsWith transcript "add " then
    let cardName := JS.trim (JS.substring 4 transcript) in
    let '(t', events) := addCardByVoice cardName t in
    (t', logged :: events)
  else (t, [logged]).

(** [recognition.onresult]: the transcript is lower-cased first. *)
Definition onresult (heard : string) (t : DeckTracker)
  : DeckTracker * list Event :=
  processVoiceCommand (JS.toLowerCase heard) t.

(** ** Runs of the tracker *)

(** What the page can deliver to the tracker. *)
Inductive Gesture :=
| CardsLoaded (json : Catalog)
| ElixirClicked (elixir : string)
| CardChosen (c : CardRecord)
| SlotClicked (position : Z)
| CycleRequested (position : Z)
| Dropped (position : Z) (data : string)
| UndoClicked
| Heard (transcript : string).

Definition handle (g : Gesture) (t : DeckTracker) : DeckTracker :=
  match g with
  | CardsLoaded json => loadCards json t
  | ElixirClicked elixir => selectElixir elixir t
  | CardChosen c => selectCard c t
  | SlotClicked position => clickSlot position t
  | CycleRequested position => cycleCard position t
  | Dropped position data => dropOnSlot position data t
  | UndoClicked => undo t
  | Heard transcript => fst (onresult transcript t)
  end.

Definition run (gs : list Gesture) (t : DeckTracker) : DeckTracker :=
  foldl (fun t g => handle g t) t gs.

(** ** Observations *)

(** The objects an array of slots refers to, slot by slot. *)
Definition resolve (h : Heap) (d : Deck) : list (option DeckSlotCard) :=
  map (fun slot => slot ≫= fun l => h !! l) d.

Definition deckContents (t : DeckTracker) : list (option DeckSlotCard) :=
  resolve (heap t) (deck t).

Definition historyContents (t : DeckTracker) : list (list (option DeckSlotCard)) :=
  map (resolve (heap t)) (history t).


(** The statement [card.isEvo = !card.isEvo] applied to whatever object the
    slot at [position] refers to, with no snapshot taken. *)
Definition mutateInPlace (position : Z) (t : DeckTracker) : DeckTracker :=
  match deckAt (deck t) position with
  | Some l => assignIsEvo l t
  | None => t
  end.

(** [this.deck = d] *)
Definition withDeck (d : Deck) (t : DeckTracker) : DeckTracker :=
  {| cards := cards t; heap := heap t; deck := d;
     history := history t; selectedElixir := selectedElixir t |}.

(** A sequence of snapshot pushes: the deck is [d] when the corresponding
    [saveState()] runs. *)
Definition pushSnapshots (ds : list Deck) (t : DeckTracker) : DeckTracker :=
  foldl (fun t d => saveState (withDeck d t)) t ds.

(** The [n] most recent entries of a list that grows at its end. *)
Definition lastN {A} (n : nat) (l : list A) : list A :=
  drop (length l - n) l.

(** All references of an array point into the store. *)
Definition validSlot (h : Heap) (slot : option loc) : Prop :=
  match slot with Some l => (l < length h)%nat | None => True end.

Definition validDeck (h : Heap) (d : Deck) : Prop := Forall (validSlot h) d.

(** What every run of the tracker maintains. *)
Record wellFormed (t : DeckTracker) : Prop := {
  deck_has_8 : length (deck t) = 8%nat;
  snapshots_have_8 : Forall (fun snapshot : Deck => length snapshot = 8%nat) (history t);
  deck_valid : validDeck (heap t) (deck t);
  snapshots_valid : Forall (validDeck (heap t)) (history t);
  history_bounded : (length (history t) ≤ 10)%nat
}.

(** In-place mutations of the objects in the slots at [qs], one by one. *)
Definition mutations (qs : list Z) (t : DeckTracker) : DeckTracker :=
  foldl (fun t q => mutateInPlace q t) t qs.

(** ** The matcher as the specification words it *)

Definition eitherContains (a b : string) : bool :=
  JS.includes a b || JS.includes b a.

Definition alternativesOf (c : CardRecord) : list string :=
  default [] (alternatives c).

(** A cascade of tiers over the cards in iteration order: the first hit of
    the first tier that has one. *)
Fixpoint firstHit (tiers : list (CardRecord → bool)) (cs : list CardRecord)
  : option CardRecord :=
  match tiers with
  | [] => None
  | tier :: later =>
      match List.find tier cs with
      | Some c => Some c
      | None => firstHit later cs
      end
  end.

(** The five strategies read off the specification: comparisons ignore
    case, and the fifth removes the standalone words and then applies the
    substring test of the third. *)
Definition tiersAsWritten (spokenText : string) : list (CardRecord → bool) :=
  let spoken := JS.toLowerCase spokenText in
  [ (fun c => String.eqb (JS.toLowerCase (name c)) spoken);
    (fun c => existsb (fun alt => String.eqb (JS.toLowerCase alt) spoken)
                (alternativesOf c));
    (fun c => eitherContains (JS.toLowerCase (name c)) spoken);
    (fun c => existsb (fun alt => eitherContains (JS.toLowerCase alt) spoken)
                (alternativesOf c));
    (fun c => eitherContains (JS.replaceStopwords (JS.toLowerCase (name c)))
                (JS.replaceStopwords spoken)) ].

Definition findBestMatch_asWritten (catalog : Catalog) (spokenText : string)
  : option CardRecord :=
  firstHit (tiersAsWritten spokenText) (allCards catalog).

(** The same five strategies with the white space handling of the source:
    the spoken text is trimmed after lower-casing, and the fifth tier trims
    both texts once the standalone words are gone. *)
Definition tiersTrimmed (spokenText : string) : list (CardRecord → bool) :=
  let spoken := JS.trim (JS.toLowerCase spokenText) in
  [ (fun c => String.eqb (JS.toLowerCase (name c)) spoken);
    (fun c => existsb (fun alt => String.eqb (JS.toLowerCase alt) spoken)
                (alternativesOf c));
    (fun c => eitherContains (JS.toLowerCase (name c)) spoken);
    (fun c => existsb (fun alt => eitherContains (JS.toLowerCase alt) spoken)
                (alternativesOf c));
    (fun c => eitherContains
                (JS.trim (JS.replaceStopwords (JS.toLowerCase (name c))))
                (JS.trim (JS.replaceStopwords spoken))) ].

Definition findBestMatch_trimmed (catalog : Catalog) (spokenText : string)
  : option CardRecord :=
  firstHit (tiersTrimmed spokenText) (allCards catalog).

(** ** Sample data *)

Definition plainCard (cardName : string) : CardRecord :=
  {| name := cardName; image := "images/" +:+ cardName +:+ ".png";
     alternatives := None |}.

Definition knight : CardRecord := plainCard "Knight".
Definition anotherKnight : CardRecord := plainCard "Another Knight".
Definition goblins : CardRecord := plainCard "Goblins".
Definition spearGoblins : CardRecord := plainCard "Spear Goblins".
Definition archers : CardRecord :=
  {| name := "Archers"; image := "images/Archers.png";
     alternatives := Some ["archer"] |}.
Definition miniPekka : CardRecord :=
  {| name := "Mini P.E.K.K.A"; image := "images/MiniPekka.png";
     alternatives := Some ["mini pekka"; ""] |}.

(** Catalogs used as concrete inputs. *)
Definition goblinCatalog : Catalog := [("2", [goblins; spearGoblins])].
Definition anotherKnightCatalog : Catalog := [("4", [anotherKnight])].
Definition knightCatalog : Catalog := [("3", [knight])].
Definition theKnightCatalog : Catalog := [("3", [plainCard "The Knight"; knight])].
Definition smallCatalog : Catalog := [("3", [knight; archers]); ("4", [miniPekka])].
Definition cardCatalog : Catalog := [("3", [plainCard "Card"])].

(** A deck with "Knight" in slot 6 and "Archers" in slot 7. *)
Definition twoCards : DeckTracker :=
  run [CardChosen knight; CardChosen archers] initial.

(** Twelve decks to push: the slots of [twoCards], rotated each time. *)
Definition rotations : list Deck :=
  map (fun n => rotate n (deck twoCards)) (seq 0 12).

(** ** Sharing *)

(** The references an array holds, in slot order. *)
Definition refs (d : Deck) : list loc := d ≫= option_list.

(** Every slot of the deck and of the snapshots. *)
Definition allSlots (t : DeckTracker) : Deck := deck t ++ concat (history t).

(** No object is referred to from two slots, of the deck or of any
    snapshot. *)
Definition separated (t : DeckTracker) : Prop := NoDup (refs (allSlots t)).

(** ** The tracker seen through its contents *)

(** What a slot array shows once its references are followed. *)
Abbreviation Contents := (list (option DeckSlotCard)).

(** The catalog, the deck and the history as a user sees them. *)
Record View := {
  vCards : Catalog;
  vDeck : Contents;
  vHistory : list Contents
}.

Definition viewOf (t : DeckTracker) : View :=
  {| vCards := cards t; vDeck := deckContents t; vHistory := historyContents t |}.

(** [deck[position]] on contents. *)
Definition contentsAt (D : Contents) (position : Z) : option DeckSlotCard :=
  if position <? 0 then None else mjoin (D !! Z.to_nat position).

(** [saveState()] when a deep copy is a value. *)
Definition vSaveState (v : View) : View :=
  {| vCards := vCards v; vDeck := vDeck v;
     vHistory := shiftOverflow (vHistory v ++ [vDeck v]) |}.

(** [cycleCard(position)] on contents. *)
Definition vCycleCard (position : Z) (v : View) : View :=
  match contentsAt (vDeck v) position with
  | None => v
  | Some o =>
      let v1 := vSaveState v in
      let pushed := delete (Z.to_nat position) (vDeck v1) ++ [Some o] in
      {| vCards := vCards v1;
         vDeck := if (8 <? length pushed)%nat
                  then drop (length pushed - 8) pushed else pushed;
         vHistory := vHistory v1 |}
  end.

(** [deckCard && deckCard.name === card.name] on contents. *)
Definition holdsName (cardName : string) (slot : option DeckSlotCard) : bool :=
  match slot with
  | Some deckCard => String.eqb (name (card deckCard)) cardName
  | None => false
  end.

Fixpoint vFindIndexFrom (i : Z) (hit : option DeckSlotCard → bool)
    (D : Contents) : Z :=
  match D with
  | [] => -1
  | slot :: rest => if hit slot then i else vFindIndexFrom (i + 1) hit rest
  end.

(** [selectCard(card)] on contents. *)
Definition vSelectCard (c : CardRecord) (v : View) : View :=
  let v1 := vSaveState v in
  let existingIndex := vFindIndexFrom 0 (holdsName (name c)) (vDeck v1) in
  if negb (existingIndex =? -1) then vCycleCard existingIndex v1
  else
    {| vCards := vCards v1;
       vDeck := drop 1 (vDeck v1) ++ [Some {| card := c; isEvo := false |}];
       vHistory := vHistory v1 |}.

(** The [drop] listener on contents. *)
Definition vDropOnSlot (position : Z) (data : string) (v : View) : View :=
  match contentsAt (vDeck v) position with
  | Some _ =>
      if String.eqb data "evo" then
        let v1 := vSaveState v in
        {| vCards := vCards v1;
           vDeck := alter (fmap flipEvo) (Z.to_nat position) (vDeck v1);
           vHistory := vHistory v1 |}
      else v
  | None => v
  end.

(** [undo()] on contents. *)
Definition vUndo (v : View) : View :=
  match last (vHistory v) with
  | Some snapshot =>
      {| vCards := vCards v; vDeck := snapshot;
         vHistory := take (length (vHistory v) - 1) (vHistory v) |}
  | None => v
  end.

Definition vHandle (g : Gesture) (v : View) : View :=
  match g with
  | CardsLoaded json =>
      {| vCards := json; vDeck := vDeck v; vHistory := vHistory v |}
  | ElixirClicked _ => vSaveState v
  | CardChosen c => vSelectCard c v
  | SlotClicked position => vCycleCard position v
  | CycleRequested position => vCycleCard position v
  | Dropped position data => vDropOnSlot position data v
  | UndoClicked => vUndo v
  | Heard heard =>
      let transcript := JS.toLowerCase heard in
      if JS.startsWith transcript "add " then
        match findBestCardMatch (vCards v) (JS.trim (JS.substring 4 transcript)) with
        | Some matchedCard => vSelectCard matchedCard v
        | None => v
        end
      else v
  end.

Definition vRun (gs : list Gesture) (v : View) : View :=
  foldl (fun v g => vHandle g v) v gs.

(** The names a deck shows, left to right. *)
Definition namesOf (D : Contents) : list string :=
  D ≫= fun slot => option_list (name ∘ card <$> slot).

(** Empty slots come before occupied ones. *)
Fixpoint nullsFirst {A} (d : list (option A)) : Prop :=
  match d with
  | [] => True
  | None :: rest => nullsFirst rest
  | Some _ :: rest => Forall is_Some rest
  end.

(** No name twice, in the deck or in any snapshot. *)
Definition uniqueNames (v : View) : Prop :=
  NoDup (namesOf (vDeck v)) ∧ Forall (fun D => NoDup (namesOf D)) (vHistory v).

(** Empty slots first, in the deck and in every snapshot. *)
Definition filledFromTheRight (v : View) : Prop :=
  nullsFirst (vDeck v) ∧ Forall nullsFirst (vHistory v).

(** ** More of the voice layer *)

(** [loadCards()], the list built for voice recognition:
    [Object.values(cards).forEach(group => group.forEach(card =>
       cardNames.push(card.name.toLowerCase())))]. *)
Definition cardNames (json : Catalog) : list string :=
  foldl (fun names group =>
           foldl (fun names c => names ++ [JS.toLowerCase (name c)])
                 names (snd group))
        [] json.

(** ** Removing words, run by run *)

(** The longest prefix made of word characters, and what follows it. *)
Fixpoint takeWord (s : string) : string :=
  match s with
  | EmptyString => EmptyString
  | String c rest => if JS.isWordChar c then String c (takeWord rest) else EmptyString
  end.

Fixpoint dropWord (s : string) : string :=
  match s with
  | EmptyString => EmptyString
  | String c rest => if JS.isWordChar c then dropWord rest else s
  end.

Definition isStopword (w : string) : bool :=
  String.eqb w "the" || String.eqb w "a" || String.eqb w "an".

Definition keepWord (w : string) : string :=
  if isStopword w then EmptyString else w.

(** The text with every maximal run of word characters that reads "the",
    "a" or "an" taken out; [word] is the run read so far. *)
Fixpoint stripRuns (word : string) (s : string) : string :=
  match s with
  | EmptyString => keepWord word
  | String c rest =>
      if JS.isWordChar c then stripRuns (word +:+ String c EmptyString) rest
      else keepWord word +:+ String c (stripRuns EmptyString rest)
  end.

Definition removeStopwordRuns (s : string) : string := stripRuns EmptyString s.

(** A text that does not start with white space. *)
Definition startsClean (s : string) : Prop :=
  match s with
  | EmptyString => True
  | String c _ => JS.isWhiteSpace c = false
  end.

(** * Properties *)

(** ** Strings *)

Section StringFacts.

Lemma startsWith_empty s : JS.startsWith s "" = true.
Proof. by destruct s. Qed.

Lemma startsWith_refl s : JS.startsWith s s = true.
Proof.
  induction s as [|a s IH]; [done|].
  cbn. by rewrite Ascii.eqb_refl, IH.
Qed.

Lemma includes_empty s : JS.includes s "" = true.
Proof. destruct s; cbn; by rewrite ?startsWith_empty. Qed.

Lemma includes_refl s : JS.includes s s = true.
Proof.
  destruct s as [|a s]; [done|].
  change (JS.startsWith (String a s) (String a s) || JS.includes s (String a s) = true).
  by rewrite startsWith_refl.
Qed.

Lemma toLowerCase_empty s : JS.toLowerCase s = "" → s = "".
Proof. by destruct s. Qed.

End StringFacts.

(** ** The matcher's loops as searches over the flattened catalog *)

Section Scans.

Lemma find_app_first {A} (f : A → bool) (l1 l2 : list A) :
  List.find f (l1 ++ l2) =
  match List.find f l1 with Some x => Some x | None => List.find f l2 end.
Proof.
  induction l1 as [|x l1 IH]; [done|].
  cbn. by destruct (f x).
Qed.

Lemma find_pointwise {A} (f g : A → bool) (l : list A) :
  (∀ x, f x = g x) → List.find f l = List.find g l.
Proof.
  intros Hfg. induction l as [|x l IH]; [done|].
  cbn. rewrite Hfg, IH. done.
Qed.

Lemma scanGroup_find hit group : scanGroup hit group = List.find hit group.
Proof.
  induction group as [|c group IH]; [done|].
  cbn. by rewrite IH.
Qed.

Lemma scanCards_find hit (cs : Catalog) :
  scanCards hit cs = List.find hit (allCards cs).
Proof.
  induction cs as [|[cost group] cs IH]; [done|].
  unfold allCards in *. cbn.
  rewrite find_app_first, scanGroup_find, IH. done.
Qed.

Lemma scanAlternatives_existsb hit alts :
  scanAlternatives hit alts = existsb hit alts.
Proof.
  induction alts as [|alt alts IH]; [done|].
  cbn. rewrite IH. by destruct (hit alt).
Qed.

Lemma viaAlternatives_existsb hit c :
  viaAlternatives hit c = existsb hit (alternativesOf c).
Proof.
  unfold viaAlternatives, alternativesOf.
  destruct (alternatives c); [apply scanAlternatives_existsb | done].
Qed.

(** The five loops of [findBestCardMatch] are one cascade. *)
Lemma findBestCardMatch_firstHit (cs : Catalog) spokenName :
  let spoken := JS.trim (JS.toLowerCase spokenName) in
  findBestCardMatch cs spokenName =
  firstHit [exactName spoken; exactAlternative spoken; partialName spoken;
            partialAlternative spoken;
            fuzzyName (JS.trim (JS.replaceStopwords spoken))] (allCards cs).
Proof.
  intros spoken. unfold findBestCardMatch. fold spoken.
  rewrite !scanCards_find. cbn.
  repeat (destruct (List.find _ _); [done|]). done.
Qed.

Lemma firstHit_None tiers cs :
  firstHit tiers cs = None ↔
  ∀ tier c, In tier tiers → In c cs → tier c = false.
Proof.
  induction tiers as [|tier tiers IH]; cbn.
  - split; [intros _ ? ? []|done].
  - destruct (List.find tier cs) as [c|] eqn:Hfind.
    + split; [done|]. intros Hall.
      apply find_some in Hfind as [Hin Hhit].
      rewrite (Hall tier c) in Hhit; [done|by left|done].
    + rewrite IH. split.
      * intros Hall tier' c [<-|Hin] Hc; [|by apply Hall].
        by apply (find_none _ _ Hfind).
      * intros Hall tier' c Hin Hc. apply Hall; [by right|done].
Qed.

Lemma firstHit_Some tiers cs r :
  firstHit tiers cs = Some r → In r cs ∧ ∃ tier, In tier tiers ∧ tier r = true.
Proof.
  induction tiers as [|tier tiers IH]; cbn; [done|].
  destruct (List.find tier cs) as [c|] eqn:Hfind.
  - intros [= <-]. apply find_some in Hfind as [Hin Hhit].
    split; [done|]. exists tier. by split; [left|].
  - intros Hr. destruct (IH Hr) as [Hin (tier' & Hin' & Hhit)].
    split; [done|]. exists tier'. by split; [right|].
Qed.

End Scans.

(** ** Fuzzy matcher *)

Section Matcher.

(** C6 (as amended). For every spoken text and catalog,
    [findBestCardMatch] is the cascade of five tiers over the cards in
    catalog iteration order -- exact name, exact alternative, substring
    either way against the name, the same against the alternatives,
    substring either way after removing the standalone words -- where the
    spoken text is lower-cased and trimmed first and the fifth tier trims
    both texts after the removal.  A later tier is consulted only when
    every earlier one misses on the whole catalog, and the result is
    not-found when all five miss. *)
Theorem findBestCardMatch_five_tiers (cs : Catalog) (spokenText : string) :
  findBestCardMatch cs spokenText = findBestMatch_trimmed cs spokenText.
Proof.
  rewrite findBestCardMatch_firstHit.
  unfold findBestMatch_trimmed, tiersTrimmed, firstHit.
  set (spoken := JS.trim (JS.toLowerCase spokenText)).
  rewrite (find_pointwise (exactAlternative spoken)
             (fun c => existsb (fun alt => String.eqb (JS.toLowerCase alt) spoken)
                         (alternativesOf c)))
    by (intros c; apply viaAlternatives_existsb).
  rewrite (find_pointwise (partialAlternative spoken)
             (fun c => existsb (fun alt => eitherContains (JS.toLowerCase alt) spoken)
                         (alternativesOf c)))
    by (intros c; apply viaAlternatives_existsb).
  reflexivity.
Qed.

(** C6 (as stated) fails in two places.  Without the trimming in the fifth
    tier, "the goblin" loses its article but keeps the blank, misses
    "Goblins" and hits "Spear Goblins"; the source answers "Goblins".
    Without the trimming of the spoken text, " knight" equals no name and
    is first contained in "The Knight"; the source answers "Knight", an
    exact match. *)
Lemma five_tiers_as_written_differ :
  (findBestCardMatch goblinCatalog "the goblin" = Some goblins ∧
   findBestMatch_asWritten goblinCatalog "the goblin" = Some spearGoblins) ∧
  (findBestCardMatch theKnightCatalog " knight" = Some knight ∧
   findBestMatch_asWritten theKnightCatalog " knight" = Some (plainCard "The Knight")) ∧
  ¬ (∀ (cs : Catalog) spokenText,
       findBestCardMatch cs spokenText = findBestMatch_asWritten cs spokenText).
Proof.
  split; [split; reflexivity|]. split; [split; reflexivity|].
  intros Hsame. specialize (Hsame goblinCatalog "the goblin"). discriminate.
Qed.

Lemma spoken_the_knight : JS.trim (JS.toLowerCase "the knight") = "the knight".
Proof. reflexivity. Qed.

(** C7 (as amended). When the catalog has a card named "Knight",
    [findBestCardMatch("the knight")] returns a card of the catalog that
    hits at one of the first three tiers, and it returns a card named
    "Another Knight" only through an alternative of that card equal to
    "the knight" up to case.  The replacement removes "the", "a" and "an"
    as whole words only, so "another knight" is left as it is. *)
Theorem the_knight_with_knight_in_catalog (cs : Catalog) (k : CardRecord) :
  In k (allCards cs) →
  name k = "Knight" →
  JS.replaceStopwords "another knight" = "another knight" ∧
  ∃ r, findBestCardMatch cs "the knight" = Some r ∧
       In r (allCards cs) ∧
       (exactName "the knight" r || exactAlternative "the knight" r
          || partialName "the knight" r = true) ∧
       (name r = "Another Knight" → exactAlternative "the knight" r = true).
Proof.
  intros Hk Hname. split; [reflexivity|].
  rewrite findBestCardMatch_firstHit, spoken_the_knight. cbn [firstHit].
  destruct (List.find (exactName _) _) as [r|] eqn:H1.
  { apply find_some in H1 as [Hin Hhit]. exists r. rewrite Hhit.
    repeat split; try done.
    intros Hr. unfold exactName in Hhit. rewrite Hr in Hhit. discriminate. }
  destruct (List.find (exactAlternative _) _) as [r|] eqn:H2.
  { apply find_some in H2 as [Hin Hhit]. exists r. rewrite Hhit.
    repeat split; try done. by rewrite orb_true_r. }
  destruct (List.find (partialName _) _) as [r|] eqn:H3.
  { apply find_some in H3 as [Hin Hhit]. exists r. rewrite Hhit.
    repeat split; try done; [apply orb_true_r|].
    intros Hr. unfold partialName in Hhit. rewrite Hr in Hhit. discriminate. }
  pose proof (find_none _ _ H3 k Hk) as Hmiss.
  unfold partialName in Hmiss. rewrite Hname in Hmiss. discriminate.
Qed.

Lemma the_knight_with_knight_in_catalog_witness :
  (In knight (allCards [("4", [anotherKnight; knight])]) ∧
   name knight = "Knight") ∧
  JS.replaceStopwords "another knight" = "another knight" ∧
  ∃ r, findBestCardMatch [("4", [anotherKnight; knight])] "the knight" = Some r ∧
       In r [anotherKnight; knight] ∧
       (exactName "the knight" r || exactAlternative "the knight" r
          || partialName "the knight" r = true) ∧
       (name r = "Another Knight" → exactAlternative "the knight" r = true).
Proof.
  assert (In knight (allCards [("4", [anotherKnight; knight])])) as Hin
    by (right; left; reflexivity).
  split; [by split|].
  exact (the_knight_with_knight_in_catalog
           [("4", [anotherKnight; knight])] knight Hin eq_refl).
Defined.

(** C7 (as stated) fails: a catalog whose only card is "Another Knight"
    answers "the knight" with that card, because the cleaned name
    "another knight" contains the cleaned text "knight". *)
Lemma the_knight_returns_another_knight :
  In anotherKnight (allCards anotherKnightCatalog) ∧
  name anotherKnight = "Another Knight" ∧
  findBestCardMatch anotherKnightCatalog "the knight" = Some anotherKnight.
Proof. split; [left; reflexivity | split; reflexivity]. Qed.

Lemma exact_implies_partial spoken alts :
  existsb (fun alt => String.eqb (JS.toLowerCase alt) spoken) alts = true →
  existsb (fun alt => JS.includes (JS.toLowerCase alt) spoken ||
                      JS.includes spoken (JS.toLowerCase alt)) alts = true.
Proof.
  rewrite !existsb_exists. intros (alt & Hin & Heq).
  exists alt. split; [done|].
  apply String.eqb_eq in Heq. by rewrite Heq, includes_refl.
Qed.

(** C8 (as amended). [findBestCardMatch("zzz-not-a-card")] is not-found
    exactly for the catalogs in which no card's lower-cased name or
    alternative contains, or is contained in, "zzz-not-a-card" and no
    card's cleaned name contains, or is contained in, the cleaned text
    "zzz-not--card". *)
Theorem zzz_not_found_iff (cs : Catalog) :
  findBestCardMatch cs "zzz-not-a-card" = None ↔
  ∀ c, In c (allCards cs) →
    partialName "zzz-not-a-card" c = false ∧
    partialAlternative "zzz-not-a-card" c = false ∧
    fuzzyName "zzz-not--card" c = false.
Proof.
  rewrite findBestCardMatch_firstHit.
  change (JS.trim (JS.toLowerCase "zzz-not-a-card")) with "zzz-not-a-card".
  change (JS.trim (JS.replaceStopwords "zzz-not-a-card")) with "zzz-not--card".
  rewrite firstHit_None. split.
  - intros Hall c Hc. repeat split; apply Hall; cbn; auto 10.
  - intros Hall tier c Htier Hc. destruct (Hall c Hc) as (Hp & Ha & Hf).
    cbn in Htier. destruct Htier as [<-|[<-|[<-|[<-|[<-|[]]]]]]; try done.
    + unfold exactName. destruct (String.eqb _ _) eqn:Heq; [|done].
      apply String.eqb_eq in Heq. unfold partialName in Hp.
      by rewrite Heq, includes_refl in Hp.
    + unfold exactAlternative, partialAlternative in *.
      rewrite viaAlternatives_existsb in *.
      destruct (existsb _ _) eqn:Hex in |- *; [|done].
      apply exact_implies_partial in Hex. congruence.
Qed.

Lemma zzz_not_found_iff_witness :
  (∀ c, In c (allCards knightCatalog) →
     partialName "zzz-not-a-card" c = false ∧
     partialAlternative "zzz-not-a-card" c = false ∧
     fuzzyName "zzz-not--card" c = false) ∧
  findBestCardMatch knightCatalog "zzz-not-a-card" = None.
Proof.
  assert (∀ c, In c (allCards knightCatalog) →
            partialName "zzz-not-a-card" c = false ∧
            partialAlternative "zzz-not-a-card" c = false ∧
            fuzzyName "zzz-not--card" c = false) as Hmiss.
  { intros c [<-|[]]. repeat split; reflexivity. }
  split; [done|].
  exact (proj2 (zzz_not_found_iff knightCatalog) Hmiss).
Defined.

(** C8 (as stated) fails: a catalog holding one card named "Card" is not
    empty and the text contains "card". *)
Lemma zzz_finds_card :
  allCards cardCatalog ≠ [] ∧
  findBestCardMatch cardCatalog "zzz-not-a-card" = Some (plainCard "Card").
Proof. split; [discriminate | reflexivity]. Qed.

End Matcher.

(** ** Voice command interpreter *)

Section Voice.

(** C9. A transcript that, lower-cased, does not start with "add " leaves
    the tracker as it is and never calls the matcher; one that does and
    whose card name the matcher misses leaves the tracker as it is and
    raises the "Card not found" notification. *)
Theorem onresult_unrecognized_or_missed (heard : string) (t : DeckTracker) :
  (JS.startsWith (JS.toLowerCase heard) "add " = false →
     fst (onresult heard t) = t ∧
     ∀ spoken, ¬ In (MatcherCalled spoken) (snd (onresult heard t))) ∧
  (JS.startsWith (JS.toLowerCase heard) "add " = true →
     findBestCardMatch (cards t)
       (JS.trim (JS.substring 4 (JS.toLowerCase heard))) = None →
     fst (onresult heard t) = t ∧
     In (Notification
           ("Card not found: " +:+ JS.trim (JS.substring 4 (JS.toLowerCase heard))))
        (snd (onresult heard t))).
Proof.
  unfold onresult, processVoiceCommand, addCardByVoice. split.
  - intros ->. split; [done|].
    intros spoken [Hin|[]]. discriminate.
  - intros -> ->. split; [done|]. cbn. auto.
Qed.

Lemma onresult_unrecognized_or_missed_witness :
  (JS.startsWith (JS.toLowerCase "play gold knight") "add " = false ∧
   fst (onresult "play gold knight" (loadCards knightCatalog initial))
     = loadCards knightCatalog initial) ∧
  (JS.startsWith (JS.toLowerCase "Add zzz") "add " = true ∧
   findBestCardMatch knightCatalog "zzz" = None ∧
   fst (onresult "Add zzz" (loadCards knightCatalog initial))
     = loadCards knightCatalog initial ∧
   In (Notification "Card not found: zzz")
      (snd (onresult "Add zzz" (loadCards knightCatalog initial)))).
Proof.
  split.
  - split; [reflexivity|].
    apply (proj1 (onresult_unrecognized_or_missed "play gold knight"
                    (loadCards knightCatalog initial))).
    reflexivity.
  - split; [reflexivity|]. split; [reflexivity|].
    apply (proj2 (onresult_unrecognized_or_missed "Add zzz"
                    (loadCards knightCatalog initial)));
      reflexivity.
Defined.

(** C10 (as amended). For every catalog with at least one card the empty
    spoken text -- what the transcript "add " leaves after trimming --
    is never answered with not-found: the matcher returns a card of the
    catalog, which is the first card in iteration order whenever no card
    has an empty name or an empty alternative, and [selectCard] is then
    invoked with the returned card. *)
Theorem empty_text_selects_a_card (t : DeckTracker) (first : CardRecord)
    (rest : list CardRecord) :
  allCards (cards t) = first :: rest →
  ∃ r, findBestCardMatch (cards t) "" = Some r ∧
       In r (allCards (cards t)) ∧
       ((∀ c, In c (allCards (cards t)) →
              name c ≠ "" ∧ ¬ In "" (alternativesOf c)) → r = first) ∧
       fst (processVoiceCommand "add " t) = selectCard r t ∧
       In (MatcherCalled "") (snd (processVoiceCommand "add " t)).
Proof.
  intros Hcards.
  assert (∃ r, findBestCardMatch (cards t) "" = Some r ∧
               In r (allCards (cards t)) ∧
               ((∀ c, In c (allCards (cards t)) →
                   name c ≠ "" ∧ ¬ In "" (alternativesOf c)) → r = first))
    as (r & Hr & Hin & Hfirst).
  { rewrite findBestCardMatch_firstHit.
    change (JS.trim (JS.toLowerCase "")) with "". cbn [firstHit].
    destruct (List.find (exactName _) _) as [r|] eqn:H1.
    { apply find_some in H1 as [Hin Hhit]. exists r. repeat split; try done.
      intros Hall. destruct (Hall r Hin) as [Hne _].
      apply String.eqb_eq, toLowerCase_empty in Hhit. done. }
    destruct (List.find (exactAlternative _) _) as [r|] eqn:H2.
    { apply find_some in H2 as [Hin Hhit]. exists r. repeat split; try done.
      intros Hall. destruct (Hall r Hin) as [_ Hne].
      unfold exactAlternative in Hhit. rewrite viaAlternatives_existsb in Hhit.
      apply existsb_exists in Hhit as (alt & Halt & Heq).
      apply String.eqb_eq, toLowerCase_empty in Heq. by subst alt. }
    rewrite Hcards. cbn [List.find]. unfold partialName at 1.
    rewrite includes_empty. cbn. exists first. repeat split; auto. }
  exists r. repeat split; try done.
  - unfold processVoiceCommand, addCardByVoice. cbn. by rewrite Hr.
  - unfold processVoiceCommand, addCardByVoice. cbn. rewrite Hr. cbn. auto.
Qed.

Lemma empty_text_selects_a_card_witness :
  allCards knightCatalog = [knight] ∧
  ∃ r, findBestCardMatch knightCatalog "" = Some r ∧
       In r [knight] ∧
       ((∀ c, In c [knight] → name c ≠ "" ∧ ¬ In "" (alternativesOf c)) →
        r = knight) ∧
       fst (processVoiceCommand "add " (loadCards knightCatalog initial))
         = selectCard r (loadCards knightCatalog initial) ∧
       In (MatcherCalled "")
          (snd (processVoiceCommand "add " (loadCards knightCatalog initial))).
Proof.
  split; [reflexivity|].
  apply (empty_text_selects_a_card (loadCards knightCatalog initial) knight []).
  reflexivity.
Defined.

(** C10 (as stated) fails: the exact tiers come first, so a later card
    with an empty alternative is preferred over the first card. *)
Lemma empty_text_prefers_empty_alternative :
  allCards smallCatalog = [knight; archers; miniPekka] ∧
  findBestCardMatch smallCatalog "" = Some miniPekka ∧
  findBestCardMatch smallCatalog "" ≠ Some knight.
Proof. split; [reflexivity | split; [reflexivity | discriminate]]. Qed.

End Voice.

(** ** The object store and deep copies *)

Section Store.

Implicit Types (h : Heap) (d snapshot : Deck) (t : DeckTracker).

Lemma resolve_agree h1 h2 d :
  Forall (fun slot => ∀ l, slot = Some l → h1 !! l = h2 !! l) d →
  resolve h1 d = resolve h2 d.
Proof.
  unfold resolve. induction 1 as [|slot d Hslot _ IH]; [done|].
  cbn. rewrite IH. f_equal.
  destruct slot as [l|]; [|done]. cbn. by apply Hslot.
Qed.

Lemma validDeck_grow h ext d : validDeck h d → validDeck (h ++ ext) d.
Proof.
  intros Hvalid. eapply Forall_impl; [exact Hvalid|].
  intros [l|]; cbn; [|done].
  rewrite length_app. lia.
Qed.

Lemma resolve_grow h ext d :
  validDeck h d → resolve (h ++ ext) d = resolve h d.
Proof.
  intros Hvalid. apply resolve_agree.
  eapply Forall_impl; [exact Hvalid|].
  intros slot Hslot l ->. cbn in Hslot. by rewrite lookup_app_l.
Qed.

Lemma resolve_cons h slot d :
  resolve h (slot :: d) = (slot ≫= fun l => h !! l) :: resolve h d.
Proof. done. Qed.

Lemma resolve_length h d : length (resolve h d) = length d.
Proof. unfold resolve. by rewrite length_map. Qed.

(** What [JSON.parse(JSON.stringify(deck))] delivers: the store grows at
    its end, the copy has the length of the original, refers to new
    objects only and, slot by slot, to objects equal to the originals. *)
Lemma jsonClone_spec d : ∀ h h' snapshot,
  jsonClone h d = (h', snapshot) →
  ∃ objs, h' = h ++ objs ∧
    length snapshot = length d ∧
    Forall (fun slot => ∀ l, slot = Some l →
              (length h ≤ l < length h')%nat) snapshot ∧
    (validDeck h d → resolve h' snapshot = resolve h d).
Proof.
  induction d as [|[l|] d IH]; intros h h' snapshot Hclone; cbn in Hclone.
  - injection Hclone as <- <-. exists []. by rewrite app_nil_r.
  - destruct (h !! l) as [o|] eqn:Hl.
    + destruct (jsonClone (h ++ [o]) d) as [h1 copy] eqn:Hrest.
      injection Hclone as <- <-.
      destruct (IH _ _ _ Hrest) as (objs & -> & Hlen & Hfresh & Hres).
      assert ((h ++ [o]) ++ objs = h ++ o :: objs) as Happ
        by by rewrite <- app_assoc.
      rewrite Happ in *.
      exists (o :: objs). repeat split.
      * cbn. by rewrite Hlen.
      * constructor.
        -- intros l' [= <-]. rewrite length_app. cbn. lia.
        -- eapply Forall_impl; [exact Hfresh|].
           intros slot Hslot l' Hl'. specialize (Hslot l' Hl').
           rewrite !length_app in Hslot. rewrite length_app.
           cbn in *. lia.
      * intros Hvalid. apply Forall_cons in Hvalid as [Hvl Hvd].
        rewrite !resolve_cons. f_equal.
        -- cbn. by rewrite Hl, list_lookup_middle.
        -- rewrite Hres by by apply validDeck_grow.
           by apply resolve_grow.
    + destruct (jsonClone h d) as [h1 copy] eqn:Hrest.
      injection Hclone as <- <-.
      destruct (IH _ _ _ Hrest) as (objs & -> & Hlen & Hfresh & Hres).
      exists objs. repeat split.
      * cbn. by rewrite Hlen.
      * constructor; [done|exact Hfresh].
      * intros Hvalid. apply Forall_cons in Hvalid as [Hvl Hvd].
        cbn in Hvl. apply lookup_ge_None in Hl. lia.
  - destruct (jsonClone h d) as [h1 copy] eqn:Hrest.
    injection Hclone as <- <-.
    destruct (IH _ _ _ Hrest) as (objs & -> & Hlen & Hfresh & Hres).
    exists objs. repeat split.
    + cbn. by rewrite Hlen.
    + constructor; [done|exact Hfresh].
    + intros Hvalid. apply Forall_cons in Hvalid as [_ Hvd].
      rewrite !resolve_cons. f_equal. by apply Hres.
Qed.

Lemma fresh_is_valid h h' snapshot :
  Forall (fun slot => ∀ l, slot = Some l →
            (length h ≤ l < length h')%nat) snapshot →
  validDeck h' snapshot.
Proof.
  intros Hfresh. eapply Forall_impl; [exact Hfresh|].
  intros [l|] Hslot; cbn; [|done].
  by apply (Hslot l).
Qed.

End Store.

(** ** The bounded history *)

Section History.

Context {A : Type}.
Implicit Types (l : list A) (x : A).

Lemma shiftOverflow_last l x : last (shiftOverflow (l ++ [x])) = Some x.
Proof.
  unfold shiftOverflow.
  destruct (Nat.ltb_spec 10 (length (l ++ [x]))) as [Hlong|_];
    [|apply last_snoc].
  destruct l as [|y l]; [cbn in Hlong; lia|].
  cbn. rewrite drop_0. apply last_snoc.
Qed.

Lemma shiftOverflow_length l x :
  (length l ≤ 10)%nat → (length (shiftOverflow (l ++ [x])) ≤ 10)%nat.
Proof.
  intros Hl. unfold shiftOverflow.
  destruct (Nat.ltb_spec 10 (length (l ++ [x]))) as [Hlong|Hshort]; [|done].
  rewrite length_drop, length_app. cbn. lia.
Qed.

Lemma shiftOverflow_Forall (P : A → Prop) l :
  Forall P l → Forall P (shiftOverflow l).
Proof.
  intros Hl. unfold shiftOverflow.
  destruct (_ <? _)%nat; [by apply Forall_drop|done].
Qed.

Lemma shiftOverflow_lastN l x :
  (length l ≤ 10)%nat → shiftOverflow (l ++ [x]) = lastN 10 (l ++ [x]).
Proof.
  intros Hl. unfold shiftOverflow, lastN.
  destruct (Nat.ltb_spec 10 (length (l ++ [x]))) as [Hlong|Hshort];
    rewrite length_app in *; cbn [length] in *.
  - replace (length l + 1 - 10)%nat with 1%nat by lia. done.
  - replace (length l + 1 - 10)%nat with 0%nat by lia. done.
Qed.

Lemma lastN_length n l : (length (lastN n l) ≤ n)%nat.
Proof. unfold lastN. rewrite length_drop. lia. Qed.

Lemma lastN_app_lastN n l1 l2 : lastN n (lastN n l1 ++ l2) = lastN n (l1 ++ l2).
Proof.
  unfold lastN.
  rewrite !length_app, length_drop, !drop_app, drop_drop, length_drop.
  f_equal; f_equal; lia.
Qed.

Lemma lastN_short n l : (length l ≤ n)%nat → lastN n l = l.
Proof.
  intros Hl. unfold lastN.
  replace (length l - n)%nat with 0%nat by lia. done.
Qed.

End History.

(** ** Snapshots *)

Section SaveState.

Implicit Types (t : DeckTracker) (d snapshot : Deck).

Lemma saveState_deck t : deck (saveState t) = deck t.
Proof. unfold saveState. by destruct (jsonClone _ _). Qed.

Lemma saveState_cards t : cards (saveState t) = cards t.
Proof. unfold saveState. by destruct (jsonClone _ _). Qed.

Lemma saveState_selectedElixir t :
  selectedElixir (saveState t) = selectedElixir t.
Proof. unfold saveState. by destruct (jsonClone _ _). Qed.

(** One call of [saveState()]: the store grows by the copies, and the
    copy of the deck goes on top of the history. *)
Lemma saveState_spec t :
  ∃ objs snapshot,
    heap (saveState t) = heap t ++ objs ∧
    history (saveState t) = shiftOverflow (history t ++ [snapshot]) ∧
    length snapshot = length (deck t) ∧
    Forall (fun slot => ∀ l, slot = Some l →
              (length (heap t) ≤ l < length (heap t ++ objs))%nat) snapshot ∧
    (validDeck (heap t) (deck t) →
     resolve (heap t ++ objs) snapshot = resolve (heap t) (deck t)).
Proof.
  unfold saveState.
  destruct (jsonClone (heap t) (deck t)) as [h' snapshot] eqn:Hclone.
  destruct (jsonClone_spec _ _ _ _ Hclone) as (objs & -> & Hlen & Hfresh & Hres).
  by exists objs, snapshot.
Qed.

Lemma saveState_wellFormed t : wellFormed t → wellFormed (saveState t).
Proof.
  intros [Hd Hs Hvd Hvs Hb].
  destruct (saveState_spec t) as (objs & snapshot & Hheap & Hhist & Hlen & Hfresh & _).
  split; rewrite ?saveState_deck, ?Hheap, ?Hhist.
  - done.
  - apply shiftOverflow_Forall, Forall_app. split; [done|].
    constructor; [congruence|constructor].
  - by apply validDeck_grow.
  - apply shiftOverflow_Forall, Forall_app. split.
    + eapply Forall_impl; [exact Hvs|]. intros d. apply validDeck_grow.
    + constructor; [|constructor]. by eapply fresh_is_valid.
  - by apply shiftOverflow_length.
Qed.

Lemma saveState_contents t :
  validDeck (heap t) (deck t) →
  Forall (validDeck (heap t)) (history t) →
  deckContents (saveState t) = deckContents t ∧
  historyContents (saveState t)
    = shiftOverflow (historyContents t ++ [deckContents t]).
Proof.
  intros Hvd Hvs.
  destruct (saveState_spec t) as (objs & snapshot & Hheap & Hhist & _ & _ & Hres).
  unfold deckContents, historyContents.
  rewrite saveState_deck, Hheap, Hhist. split; [by apply resolve_grow|].
  unfold shiftOverflow. rewrite !length_app, !length_map. cbn [length].
  assert (map (resolve (heap t ++ objs)) (history t ++ [snapshot])
          = map (resolve (heap t)) (history t) ++ [resolve (heap t) (deck t)])
    as Hmap.
  { rewrite map_app. cbn. rewrite Hres by done. f_equal.
    apply Forall_fmap_ext_1.
    eapply Forall_impl; [exact Hvs|]. intros d. apply resolve_grow. }
  destruct (_ <? _)%nat; [|done].
  by rewrite <- Hmap, <- !skipn_map.
Qed.

End SaveState.

(** ** Operations of the deck state machine *)

Section Operations.

Implicit Types (t : DeckTracker) (d : Deck) (position : Z).

Lemma deckAt_Some d position l :
  deckAt d position = Some l →
  0 ≤ position ∧ d !! Z.to_nat position = Some (Some l).
Proof.
  unfold deckAt. destruct (Z.ltb_spec position 0); [done|].
  destruct (d !! Z.to_nat position) as [[l'|]|]; cbn; try done.
  by intros [= ->].
Qed.

(** [cycleCard] on an occupied slot of a full-length deck: the slice at
    the end has nothing to cut. *)
Lemma cycleCard_occupied t position l :
  length (deck t) = 8%nat →
  deckAt (deck t) position = Some l →
  cycleCard position t =
  {| cards := cards t;
     heap := heap (saveState t);
     deck := delete (Z.to_nat position) (deck t) ++ [Some l];
     history := history (saveState t);
     selectedElixir := selectedElixir t |}.
Proof.
  intros Hlen Hat. unfold cycleCard. rewrite Hat.
  rewrite saveState_deck, saveState_cards, saveState_selectedElixir.
  apply deckAt_Some in Hat as [_ Hlook].
  assert (length (delete (Z.to_nat position) (deck t) ++ [Some l]) = 8%nat) as ->.
  { rewrite length_app, length_delete by eauto. cbn. lia. }
  done.
Qed.

Lemma cycleCard_wellFormed position t :
  wellFormed t → wellFormed (cycleCard position t).
Proof.
  intros Hwf. destruct (deckAt (deck t) position) as [l|] eqn:Hat.
  - rewrite (cycleCard_occupied t position l) by (done || apply Hwf).
    pose proof (saveState_wellFormed t Hwf) as [Hd Hs Hvd Hvs Hb].
    rewrite saveState_deck in Hd, Hvd.
    apply deckAt_Some in Hat as [_ Hlook].
    split; cbn.
    + rewrite length_app, length_delete by eauto. cbn. lia.
    + done.
    + apply Forall_app. split; [by apply Forall_delete|].
      constructor; [|constructor].
      by apply (Forall_lookup_1 _ _ _ _ Hvd Hlook).
    + done.
    + done.
  - unfold cycleCard. by rewrite Hat.
Qed.

Lemma hideCardSelection_wellFormed t :
  wellFormed t → wellFormed (hideCardSelection t).
Proof. by intros []. Qed.

Lemma selectCard_wellFormed c t : wellFormed t → wellFormed (selectCard c t).
Proof.
  intros Hwf. unfold selectCard. apply hideCardSelection_wellFormed.
  pose proof (saveState_wellFormed t Hwf) as Hwf1.
  destruct (negb _); [by apply cycleCard_wellFormed|].
  destruct Hwf1 as [Hd Hs Hvd Hvs Hb]. split; cbn.
  - rewrite length_app, length_drop. cbn. lia.
  - done.
  - apply Forall_app. split.
    + apply Forall_drop. by apply validDeck_grow.
    + constructor; [|constructor]. cbn. rewrite length_app. cbn. lia.
  - eapply Forall_impl; [exact Hvs|]. intros d. apply validDeck_grow.
  - done.
Qed.

Lemma selectElixir_wellFormed elixir t :
  wellFormed t → wellFormed (selectElixir elixir t).
Proof.
  intros Hwf. by destruct (saveState_wellFormed t Hwf).
Qed.

Lemma validDeck_same_length h h' d :
  length h' = length h → validDeck h d → validDeck h' d.
Proof.
  intros Hlen Hvalid. eapply Forall_impl; [exact Hvalid|].
  intros [l|]; cbn; [lia|done].
Qed.

Lemma assignIsEvo_wellFormed l t : wellFormed t → wellFormed (assignIsEvo l t).
Proof.
  intros [Hd Hs Hvd Hvs Hb]. split; cbn; try done.
  - eapply validDeck_same_length; [apply length_alter|done].
  - eapply Forall_impl; [exact Hvs|]. intros d.
    apply validDeck_same_length, length_alter.
Qed.

Lemma dropOnSlot_wellFormed position data t :
  wellFormed t → wellFormed (dropOnSlot position data t).
Proof.
  intros Hwf. unfold dropOnSlot.
  destruct (deckAt _ _); [|done].
  destruct (String.eqb _ _); [|done].
  by apply assignIsEvo_wellFormed, saveState_wellFormed.
Qed.

Lemma clickSlot_wellFormed position t :
  wellFormed t → wellFormed (clickSlot position t).
Proof.
  intros Hwf. unfold clickSlot.
  destruct (deckAt _ _); [by apply cycleCard_wellFormed|done].
Qed.

Lemma undo_wellFormed t : wellFormed t → wellFormed (undo t).
Proof.
  intros [Hd Hs Hvd Hvs Hb]. unfold undo.
  destruct (last (history t)) as [snapshot|] eqn:Hlast; [|done].
  apply last_Some in Hlast as [older Hhist].
  rewrite Hhist in *. apply Forall_app in Hs as [Hs1 Hs2].
  apply Forall_app in Hvs as [Hvs1 Hvs2].
  apply Forall_cons in Hs2 as [Hs2 _]. apply Forall_cons in Hvs2 as [Hvs2 _].
  rewrite length_app in *. cbn [length] in *.
  replace (length older + 1 - 1)%nat with (length older) by lia.
  rewrite take_app_length.
  split; cbn; try done. lia.
Qed.

Lemma onresult_wellFormed heard t :
  wellFormed t → wellFormed (fst (onresult heard t)).
Proof.
  intros Hwf. unfold onresult, processVoiceCommand, addCardByVoice.
  destruct (JS.startsWith _ _); [|done].
  destruct (findBestCardMatch _ _); [|done].
  by apply selectCard_wellFormed.
Qed.

Lemma handle_wellFormed g t : wellFormed t → wellFormed (handle g t).
Proof.
  intros Hwf. destruct g; cbn [handle].
  - by destruct Hwf.
  - by apply selectElixir_wellFormed.
  - by apply selectCard_wellFormed.
  - by apply clickSlot_wellFormed.
  - by apply cycleCard_wellFormed.
  - by apply dropOnSlot_wellFormed.
  - by apply undo_wellFormed.
  - by apply onresult_wellFormed.
Qed.

Lemma initial_wellFormed : wellFormed initial.
Proof.
  split; cbn.
  - done.
  - constructor.
  - repeat constructor.
  - constructor.
  - lia.
Qed.

Lemma run_wellFormed gs : ∀ t, wellFormed t → wellFormed (run gs t).
Proof.
  induction gs as [|g gs IH]; intros t Hwf; [done|].
  cbn. apply IH. by apply handle_wellFormed.
Qed.

(** C1. In every state the tracker reaches from its initial deck of eight
    nulls -- by choosing cards, cycling, dropping the evolution star,
    undoing, picking an elixir cost, loading the catalog or hearing a
    command -- the deck has exactly 8 slots, before and after the next
    operation, and so has every snapshot kept in the history. *)
Theorem deck_and_snapshots_have_8 (gs : list Gesture) (g : Gesture) :
  let before := run gs initial in
  let after := handle g before in
  (length (deck before) = 8%nat ∧
   Forall (fun snapshot : Deck => length snapshot = 8%nat) (history before)) ∧
  (length (deck after) = 8%nat ∧
   Forall (fun snapshot : Deck => length snapshot = 8%nat) (history after)).
Proof.
  intros before after.
  assert (wellFormed before) as Hbefore
    by apply run_wellFormed, initial_wellFormed.
  pose proof (handle_wellFormed g before Hbefore) as Hafter.
  split; split; (apply Hbefore || apply Hafter).
Qed.

(** C5. [cycleCard] on a position whose slot is empty changes nothing:
    the deck, the history and the store stay as they are, so no snapshot
    is pushed. *)
Theorem cycleCard_empty_slot (t : DeckTracker) (position : Z) :
  0 ≤ position < 8 →
  deck t !! Z.to_nat position = Some None →
  cycleCard position t = t ∧ clickSlot position t = t.
Proof.
  intros Hrange Hnull. unfold clickSlot, cycleCard, deckAt.
  destruct (Z.ltb_spec position 0); [lia|].
  by rewrite Hnull.
Qed.

Lemma cycleCard_empty_slot_witness :
  (0 ≤ 3 < 8 ∧ deck initial !! Z.to_nat 3 = Some None) ∧
  cycleCard 3 initial = initial ∧ clickSlot 3 initial = initial.
Proof.
  split; [split; [lia | reflexivity]|].
  apply (cycleCard_empty_slot initial 3); [lia | reflexivity].
Defined.

End Operations.

(** ** Undo *)

Section Undo.

Implicit Types (t : DeckTracker) (d snapshot : Deck) (position : Z).

(** In-place mutation through the deck's slots touches nothing above the
    addresses the deck refers to, and neither the deck nor the history. *)
Lemma mutations_frame qs : ∀ t (n : nat),
  Forall (fun slot => ∀ l, slot = Some l → (l < n)%nat) (deck t) →
  deck (mutations qs t) = deck t ∧
  history (mutations qs t) = history t ∧
  ∀ i, (n ≤ i)%nat → heap (mutations qs t) !! i = heap t !! i.
Proof.
  induction qs as [|q qs IH]; intros t n Hbelow; [done|].
  cbn. unfold mutateInPlace at 2 4 6.
  destruct (deckAt (deck t) q) as [l|] eqn:Hat; [|by apply IH].
  destruct (IH (assignIsEvo l t) n Hbelow) as (Hdeck & Hhist & Hheap).
  repeat split; [done|done|].
  intros i Hi. rewrite Hheap by done. cbn.
  apply list_lookup_alter_ne.
  apply deckAt_Some in Hat as [_ Hlook].
  pose proof (Forall_lookup_1 _ _ _ _ Hbelow Hlook l eq_refl). lia.
Qed.

Lemma cycleCard_unfold t position l :
  deckAt (deck t) position = Some l →
  cycleCard position t =
  {| cards := cards t;
     heap := heap (saveState t);
     deck := (let pushed := delete (Z.to_nat position) (deck t) ++ [Some l] in
              if (8 <? length pushed)%nat
              then drop (length pushed - 8) pushed else pushed);
     history := history (saveState t);
     selectedElixir := selectedElixir t |}.
Proof.
  intros Hat. unfold cycleCard.
  by rewrite Hat, saveState_deck, saveState_cards, saveState_selectedElixir.
Qed.

Lemma undo_top t snapshot :
  last (history t) = Some snapshot → deck (undo t) = snapshot.
Proof. intros Hlast. unfold undo. by rewrite Hlast. Qed.

Lemma undo_heap t : heap (undo t) = heap t.
Proof. unfold undo. by destruct (last _). Qed.

(** C3. [cycleCard] on an occupied slot followed by [undo] gives back a
    deck equal to the one before, slot by slot -- card and [isEvo] flag
    -- and this stays so when the objects in the slots of the cycled deck
    are mutated in place in between: the snapshot on top of the history
    refers to copies. *)
Theorem cycle_then_undo_restores (t : DeckTracker) (position : Z)
    (qs : list Z) :
  validDeck (heap t) (deck t) →
  deckAt (deck t) position ≠ None →
  deckContents (undo (mutations qs (cycleCard position t))) = deckContents t.
Proof.
  intros Hvalid Hocc.
  destruct (deckAt (deck t) position) as [l|] eqn:Hat; [clear Hocc|done].
  destruct (saveState_spec t)
    as (objs & snapshot & Hheap & Hhist & _ & Hfresh & Hres).
  set (t2 := cycleCard position t).
  assert (heap t2 = heap t ++ objs ∧
          last (history t2) = Some snapshot ∧
          Forall (fun slot => ∀ l, slot = Some l →
                    (l < length (heap t))%nat) (deck t2))
    as (Hheap2 & Hlast2 & Hbelow).
  { unfold t2. rewrite (cycleCard_unfold _ _ _ Hat).
    cbn [heap history deck]. rewrite Hheap, Hhist.
    split; [done|]. split; [apply shiftOverflow_last|].
    assert (Forall (fun slot => ∀ l, slot = Some l →
                      (l < length (heap t))%nat) (deck t)) as Hdeck.
    { eapply Forall_impl; [exact Hvalid|]. by intros slot Hslot l' ->. }
    assert (Forall (fun slot => ∀ l, slot = Some l →
                      (l < length (heap t))%nat)
              (delete (Z.to_nat position) (deck t) ++ [Some l])) as Hall.
    { apply Forall_app. split; [by apply Forall_delete|].
      constructor; [|constructor].
      apply deckAt_Some in Hat as [_ Hlook].
      apply (Forall_lookup_1 _ _ _ _ Hdeck Hlook). }
    cbv zeta. destruct (8 <? _)%nat; [by apply Forall_drop|done]. }
  destruct (mutations_frame qs t2 _ Hbelow) as (_ & Hhist3 & Hheap3).
  unfold deckContents.
  rewrite (undo_top _ snapshot) by by rewrite Hhist3.
  rewrite undo_heap, <- (Hres Hvalid), <- Hheap2.
  apply resolve_agree.
  eapply Forall_impl; [exact Hfresh|].
  intros slot Hslot l' Hl'. apply Hheap3.
  specialize (Hslot l' Hl'). lia.
Qed.

(** A sequence of pushes onto a history of at most 10 valid snapshots. *)
Lemma pushSnapshots_spec ds : ∀ t,
  Forall (validDeck (heap t)) (history t) →
  (length (history t) ≤ 10)%nat →
  Forall (validDeck (heap t)) ds →
  (length (history (pushSnapshots ds t)) ≤ 10)%nat ∧
  historyContents (pushSnapshots ds t)
    = lastN 10 (historyContents t ++ map (resolve (heap t)) ds).
Proof.
  induction ds as [|d ds IH]; intros t Hvs Hb Hds.
  - cbn. split; [done|]. rewrite app_nil_r, lastN_short; [done|].
    unfold historyContents. by rewrite length_map.
  - apply Forall_cons in Hds as [Hd Hds].
    change (pushSnapshots (d :: ds) t)
      with (pushSnapshots ds (saveState (withDeck d t))).
    set (t1 := saveState (withDeck d t)).
    destruct (saveState_spec (withDeck d t))
      as (objs & snapshot & Hheap & Hhist & _ & Hfresh & _).
    destruct (saveState_contents (withDeck d t) Hd Hvs) as [_ Hcontents].
    fold t1 in Hheap, Hhist, Hcontents. cbn in Hheap, Hhist.
    destruct (IH t1) as [Hb1 Hc1].
    + rewrite Hheap, Hhist. apply shiftOverflow_Forall, Forall_app. split.
      * eapply Forall_impl; [exact Hvs|]. intros d'. apply validDeck_grow.
      * constructor; [|constructor]. by eapply fresh_is_valid.
    + rewrite Hhist. by apply shiftOverflow_length.
    + rewrite Hheap. eapply Forall_impl; [exact Hds|].
      intros d'. apply validDeck_grow.
    + split; [done|]. rewrite Hc1, Hcontents.
      assert (map (resolve (heap t1)) ds = map (resolve (heap t)) ds) as ->.
      { rewrite Hheap. apply Forall_fmap_ext_1.
        eapply Forall_impl; [exact Hds|]. intros d'. apply resolve_grow. }
      unfold historyContents at 1, deckContents. cbn [heap history deck withDeck].
      rewrite shiftOverflow_lastN by (by rewrite length_map).
      rewrite lastN_app_lastN, <- app_assoc. done.
Qed.

(** [findIndex] answers a position of the array whose slot satisfies the
    test, or [-1]. *)
Lemma findIndexFrom_hit hit d : ∀ i j,
  findIndexFrom i hit d = j → 0 ≤ i → j ≠ -1 →
  ∃ slot, 0 ≤ j - i ∧ d !! Z.to_nat (j - i) = Some slot ∧ hit slot = true.
Proof.
  induction d as [|slot d IH]; intros i j Hfind Hi Hj; cbn in Hfind; [lia|].
  destruct (hit slot) eqn:Hhit.
  - subst j. exists slot. by rewrite Z.sub_diag.
  - destruct (IH (i + 1) j Hfind) as (slot' & Hge & Hlook & Hhit'); [lia|done|].
    exists slot'. split; [lia|]. split; [|done].
    replace (Z.to_nat (j - i)) with (S (Z.to_nat (j - (i + 1)))) by lia.
    done.
Qed.

Lemma findIndexFrom_pointwise hit hit' d : ∀ i,
  Forall (fun slot => hit slot = hit' slot) d →
  findIndexFrom i hit d = findIndexFrom i hit' d.
Proof.
  induction d as [|slot d IH]; intros i Hall; [done|].
  apply Forall_cons in Hall as [Hslot Hd]. cbn. by rewrite Hslot, IH.
Qed.

Lemma sameName_grow h ext cardName slot :
  validSlot h slot → sameName (h ++ ext) cardName slot = sameName h cardName slot.
Proof.
  destruct slot as [l|]; cbn; [|done].
  intros Hl. by rewrite lookup_app_l.
Qed.

(** Choosing a card whose name the deck already holds, in general: the
    slots and their contents are those of [cycleCard] at the index found,
    and the history is that of [cycleCard] with the deck as it was pushed
    once more. *)
Lemma selectCard_present c t i :
  wellFormed t →
  findIndex (sameName (heap t) (name c)) (deck t) = i →
  i ≠ -1 →
  deck (selectCard c t) = deck (cycleCard i t) ∧
  deckContents (selectCard c t) = deckContents (cycleCard i t) ∧
  historyContents (selectCard c t)
    = shiftOverflow (historyContents (cycleCard i t) ++ [deckContents t]).
Proof.
  intros Hwf Hfind Hi.
  pose proof (saveState_wellFormed t Hwf) as Hwf1.
  destruct (saveState_spec t) as (objs & snapshot & Hheap & _).
  destruct (findIndexFrom_hit _ _ 0 i Hfind) as (slot & Hge & Hlook & Hhit);
    [done|done|].
  rewrite Z.sub_0_r in Hge, Hlook.
  destruct slot as [l|]; [|done].
  assert (deckAt (deck t) i = Some l) as Hat.
  { unfold deckAt. destruct (Z.ltb_spec i 0); [lia|]. by rewrite Hlook. }
  assert (findIndex (sameName (heap (saveState t)) (name c)) (deck (saveState t)) = i)
    as Hfind1.
  { rewrite saveState_deck, Hheap, <- Hfind. unfold findIndex.
    apply findIndexFrom_pointwise.
    eapply Forall_impl; [apply Hwf|]. intros slot. apply sameName_grow. }
  unfold selectCard. rewrite Hfind1.
  destruct (Z.eqb_spec i (-1)) as [|_]; [done|]. cbn [negb].
  rewrite (cycleCard_occupied (saveState t) i l)
    by (rewrite saveState_deck; (apply Hwf || done)).
  rewrite (cycleCard_occupied t i l) by (apply Hwf || done).
  rewrite saveState_deck.
  destruct (saveState_contents t) as [Hdc Hhc]; [apply Hwf|apply Hwf|].
  destruct (saveState_contents (saveState t)) as [_ Hhc1];
    [apply Hwf1|apply Hwf1|].
  destruct (saveState_spec (saveState t)) as (objs1 & snapshot1 & Hheap1 & _).
  pose proof (cycleCard_wellFormed i t Hwf) as Hwf2.
  rewrite (cycleCard_occupied t i l) in Hwf2 by (apply Hwf || done).
  destruct Hwf2 as [_ _ Hvd2 _ _]. cbn in Hvd2.
  unfold deckContents, historyContents in *. cbn.
  split; [done|]. split.
  - rewrite Hheap1. by apply resolve_grow.
  - by rewrite Hhc1, Hdc.
Qed.

(** C4. The history never holds more than 10 snapshots: in every state
    the tracker reaches it has at most 10 entries, it still has after any
    further sequence of snapshot pushes, and its entries then are, in
    push order, the 10 most recent of the snapshots it had and the decks
    pushed since -- the older ones are discarded from the front. *)
Theorem history_keeps_last_ten (gs : list Gesture) (ds : list Deck) :
  let t := run gs initial in
  Forall (validDeck (heap t)) ds →
  (length (history t) ≤ 10)%nat ∧
  (length (history (pushSnapshots ds t)) ≤ 10)%nat ∧
  historyContents (pushSnapshots ds t)
    = lastN 10 (historyContents t ++ map (resolve (heap t)) ds).
Proof.
  intros t Hds.
  assert (wellFormed t) as [_ _ _ Hvs Hb]
    by apply run_wellFormed, initial_wellFormed.
  split; [done|]. by apply pushSnapshots_spec.
Qed.

End Undo.

(** ** Concrete runs *)

Section Runs.

Lemma cycle_then_undo_restores_witness :
  (validDeck (heap twoCards) (deck twoCards) ∧
   deckAt (deck twoCards) 6 ≠ None) ∧
  deckContents (undo (mutations [7; 6] (cycleCard 6 twoCards)))
    = deckContents twoCards.
Proof.
  assert (validDeck (heap twoCards) (deck twoCards)) as Hvalid
    by (vm_compute; repeat constructor).
  assert (deckAt (deck twoCards) 6 ≠ None) as Hocc by (vm_compute; discriminate).
  split; [by split|].
  exact (cycle_then_undo_restores twoCards 6 [7; 6] Hvalid Hocc).
Defined.

Lemma history_keeps_last_ten_witness :
  Forall (validDeck (heap twoCards)) rotations ∧
  (length (history twoCards) ≤ 10)%nat ∧
  (length (history (pushSnapshots rotations twoCards)) ≤ 10)%nat ∧
  historyContents (pushSnapshots rotations twoCards)
    = lastN 10 (historyContents twoCards
                  ++ map (resolve (heap twoCards)) rotations).
Proof.
  assert (Forall (validDeck (heap twoCards)) rotations) as Hvalid
    by (vm_compute; repeat constructor).
  split; [done|].
  exact (history_keeps_last_ten [CardChosen knight; CardChosen archers]
           rotations Hvalid).
Defined.

(** C2. Choosing a card whose name is already in the deck is meant to be
    [cycleCard] on its slot.  With "Knight" in slot 7, choosing "Knight"
    again does leave the same slots as [cycleCard(7)], with the same
    cards and flags and nothing evicted, but the history differs:
    [selectCard] has saved the state before it delegates to [cycleCard],
    which saves it again, so the same snapshot is pushed twice. *)
Theorem selectCard_present_pushes_twice :
  let t := run [CardChosen knight] initial in
  deckAt (deck t) 7 ≠ None ∧
  deck (selectCard knight t) = deck (cycleCard 7 t) ∧
  deckContents (selectCard knight t) = deckContents (cycleCard 7 t) ∧
  historyContents (cycleCard 7 t)
    = historyContents t ++ [deckContents t] ∧
  historyContents (selectCard knight t)
    = historyContents t ++ [deckContents t; deckContents t] ∧
  history (selectCard knight t) ≠ history (cycleCard 7 t).
Proof.
  cbv zeta. repeat split; try reflexivity; vm_compute; discriminate.
Qed.

End Runs.

(** ** No sharing between slots *)

Section Sharing.

Implicit Types (t : DeckTracker) (d snapshot fresh : Deck) (h : Heap).

Lemma submseteq_NoDup {A} (l k : list A) : l ⊆+ k → NoDup k → NoDup l.
Proof.
  intros (k' & Hperm)%submseteq_Permutation. rewrite Hperm, NoDup_app.
  by intros [? _].
Qed.

Lemma refs_app d1 d2 : refs (d1 ++ d2) = refs d1 ++ refs d2.
Proof. apply bind_app. Qed.

Lemma elem_of_refs l d : l ∈ refs d ↔ Some l ∈ d.
Proof.
  unfold refs. rewrite list_elem_of_bind. split.
  - intros ([l'|] & Hl & Hin); cbn in Hl; [|by apply not_elem_of_nil in Hl].
    apply list_elem_of_singleton in Hl. by subst.
  - intros Hin. exists (Some l). split; [apply list_elem_of_here|done].
Qed.

Lemma refs_submseteq d1 d2 : d1 ⊆+ d2 → refs d1 ⊆+ refs d2.
Proof. intros Hsub. unfold refs. by rewrite Hsub. Qed.

Lemma refs_valid h d l : validDeck h d → l ∈ refs d → (l < length h)%nat.
Proof.
  intros Hvalid Hin. apply elem_of_refs in Hin.
  unfold validDeck in Hvalid. rewrite Forall_forall in Hvalid.
  apply (Hvalid (Some l) Hin).
Qed.

Lemma elem_of_concat {A} (x : A) (ls : list (list A)) :
  x ∈ concat ls ↔ ∃ l, x ∈ l ∧ l ∈ ls.
Proof.
  induction ls as [|l ls IH]; cbn.
  - split; [by intros ?%not_elem_of_nil|by intros (l & _ & ?%not_elem_of_nil)].
  - rewrite elem_of_app, IH. split.
    + intros [Hx|(l' & Hx & Hl')].
      * exists l. split; [done|apply list_elem_of_here].
      * exists l'. split; [done|by apply list_elem_of_further].
    + intros (l' & Hx & Hl'). apply elem_of_cons in Hl' as [->|Hl'].
      * by left.
      * right. by exists l'.
Qed.

Lemma allSlots_valid t l :
  wellFormed t → l ∈ refs (allSlots t) → (l < length (heap t))%nat.
Proof.
  intros [_ _ Hvd Hvs _]. unfold allSlots. rewrite refs_app, elem_of_app.
  intros [Hin|Hin]; [by eapply refs_valid|].
  apply elem_of_refs, elem_of_concat in Hin as (snapshot & Hin & Hsnap).
  rewrite Forall_forall in Hvs.
  eapply refs_valid; [by apply Hvs|]. by apply elem_of_refs.
Qed.

(** The copy made by [JSON.parse(JSON.stringify(deck))] refers to the
    addresses that were free, one after the other. *)
Lemma jsonClone_refs d : ∀ h h' snapshot,
  jsonClone h d = (h', snapshot) →
  refs snapshot = seq (length h) (length h' - length h).
Proof.
  induction d as [|[l|] d IH]; intros h h' snapshot Hclone; cbn in Hclone.
  - injection Hclone as <- <-. by rewrite Nat.sub_diag.
  - destruct (h !! l) as [o|].
    + destruct (jsonClone (h ++ [o]) d) as [h1 copy] eqn:Hrest.
      injection Hclone as <- <-.
      destruct (jsonClone_spec _ _ _ _ Hrest) as (objs & -> & _).
      change (refs (Some (length h) :: copy)) with (length h :: refs copy).
      rewrite (IH _ _ _ Hrest).
      rewrite !length_app. cbn.
      replace (length h + 1 + length objs - length h)%nat
        with (S (length objs)) by lia.
      replace (length h + 1 + length objs - (length h + 1))%nat
        with (length objs) by lia.
      cbn. by rewrite Nat.add_1_r.
    + destruct (jsonClone h d) as [h1 copy] eqn:Hrest.
      injection Hclone as <- <-. apply (IH _ _ _ Hrest).
  - destruct (jsonClone h d) as [h1 copy] eqn:Hrest.
    injection Hclone as <- <-. apply (IH _ _ _ Hrest).
Qed.

(** A step keeps the slots apart when all it adds are references to
    addresses that were free. *)
Lemma separated_step t t' fresh :
  wellFormed t → separated t →
  allSlots t' ⊆+ allSlots t ++ fresh →
  NoDup (refs fresh) →
  (∀ l, l ∈ refs fresh → (length (heap t) ≤ l)%nat) →
  separated t'.
Proof.
  intros Hwf Hsep Hsub Hnodup Hfresh. unfold separated.
  eapply submseteq_NoDup; [by apply refs_submseteq|].
  rewrite refs_app. apply NoDup_app. split; [done|]. split; [|done].
  intros l Hold Hnew. pose proof (allSlots_valid t l Hwf Hold).
  pose proof (Hfresh l Hnew). lia.
Qed.

Lemma concat_shiftOverflow {A} (ls : list (list A)) :
  concat (shiftOverflow ls) ⊆+ concat ls.
Proof.
  unfold shiftOverflow. destruct (_ <? _)%nat; [|done].
  destruct ls as [|x ls]; [done|]. cbn. rewrite drop_0.
  by apply submseteq_inserts_l.
Qed.

Lemma saveState_separated t :
  wellFormed t → separated t → separated (saveState t).
Proof.
  intros Hwf Hsep. unfold saveState.
  destruct (jsonClone (heap t) (deck t)) as [h' snapshot] eqn:Hclone.
  apply (separated_step t _ snapshot); try done.
  - unfold allSlots. cbn. rewrite <- app_assoc. apply submseteq_skips_l.
    etrans; [apply concat_shiftOverflow|].
    rewrite concat_app. cbn. by rewrite app_nil_r.
  - rewrite (jsonClone_refs _ _ _ _ Hclone). apply NoDup_seq.
  - intros l. rewrite (jsonClone_refs _ _ _ _ Hclone), elem_of_seq. lia.
Qed.

Lemma separated_same_slots t t' :
  allSlots t' ≡ₚ allSlots t → separated t → separated t'.
Proof.
  intros Hperm Hsep. eapply submseteq_NoDup; [|exact Hsep].
  by apply refs_submseteq, Permutation_submseteq.
Qed.

Lemma cycleCard_separated position t :
  wellFormed t → separated t → separated (cycleCard position t).
Proof.
  intros Hwf Hsep. destruct (deckAt (deck t) position) as [l|] eqn:Hat.
  - rewrite (cycleCard_occupied t position l) by (done || apply Hwf).
    apply (separated_same_slots (saveState t)); [|by apply saveState_separated].
    unfold allSlots. cbn. rewrite saveState_deck.
    apply deckAt_Some in Hat as [_ Hlook].
    rewrite (delete_Permutation _ _ _ Hlook) at 2.
    by rewrite <- Permutation_cons_append.
  - unfold cycleCard. by rewrite Hat.
Qed.

Lemma selectCard_separated c t :
  wellFormed t → separated t → separated (selectCard c t).
Proof.
  intros Hwf Hsep. unfold selectCard.
  pose proof (saveState_wellFormed t Hwf) as Hwf1.
  pose proof (saveState_separated t Hwf Hsep) as Hsep1.
  apply (separated_same_slots
           (if negb (findIndex (sameName (heap (saveState t)) (name c))
                       (deck (saveState t)) =? -1)
            then cycleCard (findIndex (sameName (heap (saveState t)) (name c))
                              (deck (saveState t))) (saveState t)
            else {| cards := cards (saveState t);
                    heap := heap (saveState t) ++ [{| card := c; isEvo := false |}];
                    deck := drop 1 (deck (saveState t))
                              ++ [Some (length (heap (saveState t)))];
                    history := history (saveState t);
                    selectedElixir := selectedElixir (saveState t) |}));
    [done|].
  destruct (negb _); [by apply cycleCard_separated|].
  apply (separated_step (saveState t) _ [Some (length (heap (saveState t)))]);
    try done.
  - unfold allSlots. cbn.
    rewrite <- (app_assoc (drop 1 _)), <- (app_assoc (deck _)).
    apply submseteq_app; [apply sublist_submseteq, sublist_drop|].
    by rewrite (Permutation_app_comm [_]).
  - cbn. apply NoDup_singleton.
  - intros l Hl. cbn in Hl. apply list_elem_of_singleton in Hl. lia.
Qed.

Lemma undo_separated t : separated t → separated (undo t).
Proof.
  intros Hsep. unfold undo.
  destruct (last (history t)) as [snapshot|] eqn:Hlast; [|done].
  apply last_Some in Hlast as [older Hhist].
  unfold separated, allSlots in *. cbn. rewrite Hhist in *.
  rewrite length_app. cbn [length].
  replace (length older + 1 - 1)%nat with (length older) by lia.
  rewrite take_app_length.
  eapply submseteq_NoDup; [|exact Hsep]. apply refs_submseteq.
  rewrite concat_app. cbn. rewrite app_nil_r.
  rewrite (Permutation_app_comm snapshot). by apply submseteq_inserts_l.
Qed.

Lemma handle_separated g t :
  wellFormed t → separated t → separated (handle g t).
Proof.
  intros Hwf Hsep. destruct g; cbn [handle].
  - done.
  - by apply (separated_same_slots (saveState t)), saveState_separated.
  - by apply selectCard_separated.
  - unfold clickSlot. destruct (deckAt _ _); [by apply cycleCard_separated|done].
  - by apply cycleCard_separated.
  - unfold dropOnSlot. destruct (deckAt _ _); [|done].
    destruct (String.eqb _ _); [|done].
    by apply (separated_same_slots (saveState t)), saveState_separated.
  - by apply undo_separated.
  - unfold onresult, processVoiceCommand, addCardByVoice.
    destruct (JS.startsWith _ _); [|done].
    destruct (findBestCardMatch _ _); [|done].
    by apply selectCard_separated.
Qed.

Lemma run_invariants gs : ∀ t,
  wellFormed t → separated t → wellFormed (run gs t) ∧ separated (run gs t).
Proof.
  induction gs as [|g gs IH]; intros t Hwf Hsep; [done|].
  cbn. apply IH; [by apply handle_wellFormed|by apply handle_separated].
Qed.

Lemma initial_separated : separated initial.
Proof. cbn. constructor. Qed.

(** X1. In every state the tracker reaches, no card object is referred to
    twice: the slots of the deck and of all snapshots in the history point
    to pairwise different objects, so a change made through one slot can
    show nowhere else. *)
Theorem reachable_never_shares (gs : list Gesture) :
  NoDup (refs (deck (run gs initial) ++ concat (history (run gs initial)))).
Proof.
  apply (run_invariants gs initial initial_wellFormed initial_separated).
Qed.

End Sharing.

(** ** The tracker behaves as its contents do *)

Section Refinement.

Implicit Types (t : DeckTracker) (d snapshot : Deck) (h : Heap) (v : View).

Lemma resolve_app h d1 d2 : resolve h (d1 ++ d2) = resolve h d1 ++ resolve h d2.
Proof. apply map_app. Qed.

Lemma resolve_lookup h d i :
  resolve h d !! i = (fun slot => slot ≫= fun l => h !! l) <$> d !! i.
Proof. apply (list_lookup_fmap (fun slot : option loc => slot ≫= fun l => h !! l)). Qed.

Lemma resolve_delete h d i : resolve h (delete i d) = delete i (resolve h d).
Proof. apply (list_fmap_delete (fun slot : option loc => slot ≫= fun l => h !! l)). Qed.

Lemma resolve_drop h d n : resolve h (drop n d) = drop n (resolve h d).
Proof. apply (fmap_drop (fun slot : option loc => slot ≫= fun l => h !! l)). Qed.

Lemma contentsAt_resolve h d position :
  contentsAt (resolve h d) position = deckAt d position ≫= fun l => h !! l.
Proof.
  unfold contentsAt, deckAt. destruct (position <? 0); [done|].
  rewrite resolve_lookup. by destruct (d !! Z.to_nat position) as [[l|]|].
Qed.

Lemma valid_lookup h d i l :
  validDeck h d → d !! i = Some (Some l) → is_Some (h !! l).
Proof.
  intros Hvalid Hlook. apply lookup_lt_is_Some.
  apply (Forall_lookup_1 _ _ _ _ Hvalid Hlook).
Qed.

Lemma viewOf_saveState t :
  wellFormed t → viewOf (saveState t) = vSaveState (viewOf t).
Proof.
  intros Hwf.
  destruct (saveState_contents t) as [Hdc Hhc]; [apply Hwf|apply Hwf|].
  unfold viewOf, vSaveState. cbn. by rewrite saveState_cards, Hdc, Hhc.
Qed.

Lemma viewOf_cycleCard position t :
  wellFormed t → viewOf (cycleCard position t) = vCycleCard position (viewOf t).
Proof.
  intros Hwf. unfold vCycleCard. cbn [vDeck viewOf].
  unfold deckContents at 1. rewrite contentsAt_resolve.
  destruct (deckAt (deck t) position) as [l|] eqn:Hat; cbn.
  - pose proof Hat as [_ Hlook]%deckAt_Some.
    destruct (valid_lookup _ _ _ _ (deck_valid t Hwf) Hlook) as [o Ho].
    rewrite Ho.
    rewrite (cycleCard_occupied t position l) by (done || apply Hwf).
    destruct (saveState_spec t) as (objs & snapshot & Hheap & _).
    destruct (saveState_contents t) as [_ Hhc]; [apply Hwf|apply Hwf|].
    assert (length (delete (Z.to_nat position) (deckContents t) ++ [Some o])
            = 8%nat) as ->.
    { unfold deckContents.
      rewrite length_app, length_delete, resolve_length, (deck_has_8 t Hwf);
        [done|].
      rewrite resolve_lookup, Hlook. eauto. }
    unfold viewOf, vSaveState, deckContents, historyContents in *.
    cbn [cards heap deck history vCards vDeck vHistory].
    rewrite Hhc. f_equal.
    rewrite Hheap, resolve_grow.
    + rewrite resolve_app, resolve_delete. cbn. by rewrite Ho.
    + apply Forall_app. split; [apply Forall_delete, Hwf|].
      constructor; [|constructor].
      apply (Forall_lookup_1 _ _ _ _ (deck_valid t Hwf) Hlook).
  - unfold cycleCard. by rewrite Hat.
Qed.

Lemma sameName_holdsName h cardName slot :
  sameName h cardName slot = holdsName cardName (slot ≫= fun l => h !! l).
Proof.
  destruct slot as [l|]; cbn; [|done]. by destruct (h !! l).
Qed.

Lemma findIndexFrom_resolve h cardName d : ∀ i,
  findIndexFrom i (sameName h cardName) d
  = vFindIndexFrom i (holdsName cardName) (resolve h d).
Proof.
  induction d as [|slot d IH]; intros i; [done|].
  cbn. by rewrite sameName_holdsName, IH.
Qed.

Lemma viewOf_hideCardSelection t : viewOf (hideCardSelection t) = viewOf t.
Proof. done. Qed.

Lemma viewOf_selectCard c t :
  wellFormed t → viewOf (selectCard c t) = vSelectCard c (viewOf t).
Proof.
  intros Hwf. pose proof (saveState_wellFormed t Hwf) as Hwf1.
  unfold selectCard, vSelectCard.
  rewrite viewOf_hideCardSelection, <- viewOf_saveState by done.
  unfold findIndex. rewrite findIndexFrom_resolve.
  change (resolve (heap (saveState t)) (deck (saveState t)))
    with (vDeck (viewOf (saveState t))).
  destruct (negb _); [by apply viewOf_cycleCard|].
  unfold viewOf, deckContents, historyContents.
  cbn [cards heap deck history vCards vDeck vHistory]. f_equal.
  - rewrite resolve_app, resolve_drop, resolve_grow
      by apply (deck_valid _ Hwf1).
    f_equal. cbn. by rewrite list_lookup_middle.
  - apply Forall_fmap_ext_1.
    eapply Forall_impl; [apply (snapshots_valid _ Hwf1)|].
    intros d. apply resolve_grow.
Qed.

(** Different slots of an array that shares nothing hold different
    references. *)
Lemma refs_NoDup_lookup d : ∀ i j l,
  NoDup (refs d) →
  d !! i = Some (Some l) → d !! j = Some (Some l) → i = j.
Proof.
  induction d as [|slot d IH]; intros i j l Hnodup Hi Hj; [done|].
  change (refs (slot :: d)) with (option_list slot ++ refs d) in Hnodup.
  apply NoDup_app in Hnodup as (_ & Hdisj & Hrest).
  destruct i as [|i], j as [|j]; cbn in Hi, Hj.
  - done.
  - injection Hi as ->. exfalso. apply (Hdisj l).
    + apply list_elem_of_here.
    + apply elem_of_refs. by eapply list_elem_of_lookup_2.
  - injection Hj as ->. exfalso. apply (Hdisj l).
    + apply list_elem_of_here.
    + apply elem_of_refs. by eapply list_elem_of_lookup_2.
  - f_equal. by eapply IH.
Qed.

Lemma resolve_alter (f : DeckSlotCard → DeckSlotCard) h d n l :
  NoDup (refs d) →
  d !! n = Some (Some l) →
  resolve (alter f l h) d = alter (fmap f) n (resolve h d).
Proof.
  intros Hnodup Hn. apply list_eq. intros i.
  destruct (decide (i = n)) as [->|Hne].
  - rewrite list_lookup_alter_eq, !resolve_lookup, Hn. cbn.
    by rewrite list_lookup_alter_eq.
  - rewrite list_lookup_alter_ne, !resolve_lookup by done.
    destruct (d !! i) as [[l'|]|] eqn:Hi; cbn; try done.
    f_equal. apply list_lookup_alter_ne. intros ->.
    apply Hne. by eapply refs_NoDup_lookup.
Qed.

Lemma resolve_alter_elsewhere (f : DeckSlotCard → DeckSlotCard) h d l :
  l ∉ refs d → resolve (alter f l h) d = resolve h d.
Proof.
  intros Hl. apply resolve_agree, Forall_forall.
  intros slot Hslot l' ->. apply list_lookup_alter_ne.
  intros ->. by apply Hl, elem_of_refs.
Qed.

Lemma viewOf_dropOnSlot position data t :
  wellFormed t → separated t →
  viewOf (dropOnSlot position data t) = vDropOnSlot position data (viewOf t).
Proof.
  intros Hwf Hsep. unfold dropOnSlot, vDropOnSlot. cbn [vDeck viewOf].
  unfold deckContents at 1. rewrite contentsAt_resolve.
  destruct (deckAt (deck t) position) as [l|] eqn:Hat;
    cbn [mbind option_bind]; [|done].
  pose proof Hat as [_ Hlook]%deckAt_Some.
  destruct (valid_lookup _ _ _ _ (deck_valid t Hwf) Hlook) as [o Ho].
  rewrite Ho. destruct (String.eqb data "evo"); [|done]. cbv zeta.
  pose proof (saveState_separated t Hwf Hsep) as Hsep1.
  unfold separated, allSlots in Hsep1.
  rewrite refs_app, saveState_deck in Hsep1.
  apply NoDup_app in Hsep1 as (Hdeck & Hdisj & _).
  rewrite <- viewOf_saveState by done.
  unfold viewOf, deckContents, historyContents.
  cbn [cards heap deck history vCards vDeck vHistory assignIsEvo].
  rewrite saveState_deck. f_equal.
  - by apply resolve_alter.
  - apply Forall_fmap_ext_1, Forall_forall. intros snapshot Hsnap.
    apply resolve_alter_elsewhere. intros Hl.
    apply (Hdisj l).
    + apply elem_of_refs. by eapply list_elem_of_lookup_2.
    + apply elem_of_refs, elem_of_concat. exists snapshot.
      split; [by apply elem_of_refs|done].
Qed.

Lemma viewOf_undo t : viewOf (undo t) = vUndo (viewOf t).
Proof.
  unfold undo, vUndo, viewOf, historyContents. cbn.
  rewrite (fmap_last (resolve (heap t))), length_map.
  destruct (last (history t)) as [snapshot|]; cbn; [|done].
  unfold deckContents, historyContents. cbn. f_equal.
  apply (fmap_take (resolve (heap t))).
Qed.

Lemma viewOf_handle g t :
  wellFormed t → separated t → viewOf (handle g t) = vHandle g (viewOf t).
Proof.
  intros Hwf Hsep. destruct g; cbn [handle vHandle].
  - done.
  - by rewrite <- viewOf_saveState.
  - by apply viewOf_selectCard.
  - unfold clickSlot.
    destruct (deckAt (deck t) position) eqn:Hat; [by apply viewOf_cycleCard|].
    rewrite <- viewOf_cycleCard by done. unfold cycleCard. by rewrite Hat.
  - by apply viewOf_cycleCard.
  - by apply viewOf_dropOnSlot.
  - apply viewOf_undo.
  - unfold onresult, processVoiceCommand, addCardByVoice. cbn [vCards viewOf].
    destruct (JS.startsWith _ _); [|done].
    destruct (findBestCardMatch _ _); [|done].
    by apply viewOf_selectCard.
Qed.

Lemma viewOf_run gs : ∀ t,
  wellFormed t → separated t → viewOf (run gs t) = vRun gs (viewOf t).
Proof.
  induction gs as [|g gs IH]; intros t Hwf Hsep; [done|].
  change (run (g :: gs) t) with (run gs (handle g t)).
  change (vRun (g :: gs) (viewOf t)) with (vRun gs (vHandle g (viewOf t))).
  rewrite IH, viewOf_handle; try done.
  - by apply handle_wellFormed.
  - by apply handle_separated.
Qed.

(** X2. Against every sequence of gestures the tracker, with its object
    store, shows the same catalog, deck contents and history contents as
    the machine that keeps those contents as plain values: the references,
    the deep copies and the in-place update of [isEvo] never produce an
    effect that plain values would not. *)
Theorem contents_follow_value_machine (gs : list Gesture) :
  viewOf (run gs initial)
  = vRun gs {| vCards := []; vDeck := replicate 8 None; vHistory := [] |}.
Proof.
  apply (viewOf_run gs initial initial_wellFormed initial_separated).
Qed.

End Refinement.

(** ** What each operation does to the contents *)

Section Contents.

Implicit Types (t : DeckTracker) (v : View) (D : Contents) (position : Z).

Lemma reachable_invariants gs :
  wellFormed (run gs initial) ∧ separated (run gs initial).
Proof. apply run_invariants; [apply initial_wellFormed|apply initial_separated]. Qed.

Lemma historyContents_bounded t :
  wellFormed t → (length (historyContents t) ≤ 10)%nat.
Proof.
  intros Hwf. unfold historyContents. rewrite length_map. apply Hwf.
Qed.

Lemma deckContents_length t : wellFormed t → length (deckContents t) = 8%nat.
Proof. intros Hwf. unfold deckContents. rewrite resolve_length. apply Hwf. Qed.

Lemma vSaveState_history v :
  (length (vHistory v) ≤ 10)%nat →
  vHistory (vSaveState v) = lastN 10 (vHistory v ++ [vDeck v]).
Proof. intros Hb. cbn. by apply shiftOverflow_lastN. Qed.

Lemma contentsAt_Some D position o :
  contentsAt D position = Some o →
  0 ≤ position ∧ D !! Z.to_nat position = Some (Some o).
Proof.
  unfold contentsAt. destruct (Z.ltb_spec position 0); [done|].
  destruct (D !! Z.to_nat position) as [[o'|]|]; cbn; try done.
  by intros [= ->].
Qed.

Lemma vFindIndexFrom_miss hit D : ∀ i,
  Forall (fun slot => hit slot = false) D → vFindIndexFrom i hit D = -1.
Proof.
  induction D as [|slot D IH]; intros i Hall; [done|].
  apply Forall_cons in Hall as [Hslot HD]. cbn. rewrite Hslot. by apply IH.
Qed.

Lemma vFindIndexFrom_hit hit D : ∀ i j,
  vFindIndexFrom i hit D = j → 0 ≤ i → j ≠ -1 →
  ∃ slot, 0 ≤ j - i ∧ D !! Z.to_nat (j - i) = Some slot ∧ hit slot = true.
Proof.
  induction D as [|slot D IH]; intros i j Hfind Hi Hj; cbn in Hfind; [lia|].
  destruct (hit slot) eqn:Hhit.
  - subst j. exists slot. by rewrite Z.sub_diag.
  - destruct (IH (i + 1) j Hfind) as (slot' & Hge & Hlook & Hhit'); [lia|done|].
    exists slot'. split; [lia|]. split; [|done].
    replace (Z.to_nat (j - i)) with (S (Z.to_nat (j - (i + 1)))) by lia.
    done.
Qed.

(** [cycleCard] on contents of length 8, slot occupied. *)
Lemma vCycleCard_occupied position v o :
  length (vDeck v) = 8%nat →
  contentsAt (vDeck v) position = Some o →
  vCycleCard position v =
  {| vCards := vCards v;
     vDeck := delete (Z.to_nat position) (vDeck v) ++ [Some o];
     vHistory := shiftOverflow (vHistory v ++ [vDeck v]) |}.
Proof.
  intros Hlen Hat. unfold vCycleCard. rewrite Hat. cbn.
  apply contentsAt_Some in Hat as [_ Hlook].
  assert (length (delete (Z.to_nat position) (vDeck v) ++ [Some o]) = 8%nat) as ->.
  { rewrite length_app, length_delete by eauto. cbn. lia. }
  done.
Qed.

(** X3. Choosing a card whose name no slot holds, in any state the tracker
    reaches: the content of slot 0 is dropped, the other seven move one
    slot to the left, slot 7 receives the card with [isEvo] false, and the
    deck as it was is pushed onto the history once. *)
Theorem selectCard_new_name (gs : list Gesture) (c : CardRecord) :
  let t := run gs initial in
  (∀ o, Some o ∈ deckContents t → name (card o) ≠ name c) →
  deckContents (selectCard c t)
    = drop 1 (deckContents t) ++ [Some {| card := c; isEvo := false |}] ∧
  historyContents (selectCard c t)
    = lastN 10 (historyContents t ++ [deckContents t]).
Proof.
  intros t Hnew. destruct (reachable_invariants gs) as [Hwf Hsep]. fold t in Hwf.
  pose proof (viewOf_selectCard c t Hwf) as Hview.
  unfold vSelectCard in Hview.
  rewrite vFindIndexFrom_miss in Hview.
  - cbn [negb Z.eqb] in Hview.
    rewrite <- (shiftOverflow_lastN _ _ (historyContents_bounded t Hwf)).
    split; [exact (f_equal vDeck Hview)|exact (f_equal vHistory Hview)].
  - apply Forall_forall. intros [o|] Hin; [|done]. cbn.
    apply String.eqb_neq. by apply Hnew.
Qed.

Lemma selectCard_new_name_witness :
  (∀ o, Some o ∈ deckContents twoCards → name (card o) ≠ name goblins) ∧
  deckContents (selectCard goblins twoCards)
    = drop 1 (deckContents twoCards) ++ [Some {| card := goblins; isEvo := false |}] ∧
  historyContents (selectCard goblins twoCards)
    = lastN 10 (historyContents twoCards ++ [deckContents twoCards]).
Proof.
  assert (∀ o, Some o ∈ deckContents twoCards → name (card o) ≠ name goblins)
    as Hnew.
  { assert (Forall (fun slot => ∀ o, slot = Some o → name (card o) ≠ name goblins)
              (deckContents twoCards)) as Hall.
    { replace (deckContents twoCards)
        with (replicate 6 None
                ++ [Some {| card := knight; isEvo := false |};
                    Some {| card := archers; isEvo := false |}])
        by reflexivity.
      repeat constructor; intros o [= <-]; discriminate. }
    intros o Hin. rewrite Forall_forall in Hall. by apply (Hall _ Hin). }
  split; [done|].
  exact (selectCard_new_name [CardChosen knight; CardChosen archers] goblins Hnew).
Defined.

Lemma delete_last_append {A} (l : list A) (x : A) :
  l !! pred (length l) = Some x → delete (pred (length l)) l ++ [x] = l.
Proof.
  intros Hlook. destruct (last_Some l x) as [[older ->] _].
  { by rewrite last_lookup. }
  rewrite length_app. cbn.
  replace (pred (length older + 1)) with (length older) by lia.
  rewrite delete_take_drop, take_app_length.
  rewrite drop_ge by (rewrite length_app; cbn; lia).
  by rewrite app_nil_r.
Qed.

(** X4. [cycleCard] on an occupied slot, in any state the tracker reaches:
    the card object of that slot, flag included, moves to slot 7, the
    slots after it move one to the left, and the deck as it was is pushed
    onto the history once; on slot 7 the deck stays as it is and the
    snapshot is pushed all the same. *)
Theorem cycleCard_moves_to_last (gs : list Gesture) (position : Z)
    (o : DeckSlotCard) :
  let t := run gs initial in
  contentsAt (deckContents t) position = Some o →
  deckContents (cycleCard position t)
    = delete (Z.to_nat position) (deckContents t) ++ [Some o] ∧
  historyContents (cycleCard position t)
    = lastN 10 (historyContents t ++ [deckContents t]) ∧
  (position = 7 → deckContents (cycleCard position t) = deckContents t).
Proof.
  intros t Hat. destruct (reachable_invariants gs) as [Hwf Hsep]. fold t in Hwf.
  pose proof (viewOf_cycleCard position t Hwf) as Hview.
  rewrite (vCycleCard_occupied position (viewOf t) o) in Hview
    by (done || by apply deckContents_length).
  rewrite <- (shiftOverflow_lastN _ _ (historyContents_bounded t Hwf)).
  pose proof (f_equal vDeck Hview) as Hdeck. cbn in Hdeck.
  split; [done|]. split; [exact (f_equal vHistory Hview)|].
  intros ->. rewrite Hdeck.
  apply contentsAt_Some in Hat as [_ Hlook].
  pose proof (deckContents_length t Hwf) as Hlen.
  change (Z.to_nat 7) with (pred 8) in *. rewrite <- Hlen in *.
  by apply delete_last_append.
Qed.

Lemma cycleCard_moves_to_last_witness :
  contentsAt (deckContents twoCards) 6
    = Some {| card := knight; isEvo := false |} ∧
  deckContents (cycleCard 6 twoCards)
    = delete 6%nat (deckContents twoCards)
        ++ [Some {| card := knight; isEvo := false |}] ∧
  historyContents (cycleCard 6 twoCards)
    = lastN 10 (historyContents twoCards ++ [deckContents twoCards]) ∧
  (6 = 7 → deckContents (cycleCard 6 twoCards) = deckContents twoCards).
Proof.
  split; [reflexivity|].
  exact (cycleCard_moves_to_last [CardChosen knight; CardChosen archers] 6
           {| card := knight; isEvo := false |} eq_refl).
Defined.

Lemma alter_as_insert {A} (f : A → A) (l : list A) i x :
  l !! i = Some x → alter f i l = <[i := f x]> l.
Proof.
  intros Hlook. apply list_eq. intros j.
  destruct (decide (j = i)) as [->|Hne].
  - rewrite list_lookup_alter_eq, Hlook, list_lookup_insert_eq; [done|].
    by eapply lookup_lt_Some.
  - by rewrite list_lookup_alter_ne, list_lookup_insert_ne.
Qed.

Lemma flipEvo_twice o : flipEvo (flipEvo o) = o.
Proof. destruct o as [c e]. unfold flipEvo. cbn. by rewrite negb_involutive. Qed.

(** The [drop] listener on an occupied slot, star dropped. *)
Lemma vDropOnSlot_occupied position v o :
  (length (vHistory v) ≤ 10)%nat →
  contentsAt (vDeck v) position = Some o →
  vDropOnSlot position "evo" v =
  {| vCards := vCards v;
     vDeck := <[Z.to_nat position := Some (flipEvo o)]> (vDeck v);
     vHistory := lastN 10 (vHistory v ++ [vDeck v]) |}.
Proof.
  intros Hb Hat. unfold vDropOnSlot. rewrite Hat. cbn.
  apply contentsAt_Some in Hat as [_ Hlook].
  by rewrite (alter_as_insert _ _ _ _ Hlook), shiftOverflow_lastN.
Qed.

Lemma dropOnSlot_reachable_view gs position :
  viewOf (dropOnSlot position "evo" (run gs initial))
  = vDropOnSlot position "evo" (viewOf (run gs initial)).
Proof.
  destruct (reachable_invariants gs) as [Hwf Hsep]. by apply viewOf_dropOnSlot.
Qed.

(** X5. Dropping the evolution star on an occupied slot, in any state the
    tracker reaches, flips the [isEvo] flag of the card in that slot and of
    no other, keeps every card where it is, and pushes the deck as it was
    onto the history once. *)
Theorem dropOnSlot_flips_one_flag (gs : list Gesture) (position : Z)
    (o : DeckSlotCard) :
  let t := run gs initial in
  contentsAt (deckContents t) position = Some o →
  deckContents (dropOnSlot position "evo" t)
    = <[Z.to_nat position := Some (flipEvo o)]> (deckContents t) ∧
  historyContents (dropOnSlot position "evo" t)
    = lastN 10 (historyContents t ++ [deckContents t]).
Proof.
  intros t Hat. destruct (reachable_invariants gs) as [Hwf _]. fold t in Hwf.
  pose proof (dropOnSlot_reachable_view gs position) as Hview. fold t in Hview.
  rewrite (vDropOnSlot_occupied position (viewOf t) o) in Hview
    by (done || by apply historyContents_bounded).
  split; [exact (f_equal vDeck Hview)|exact (f_equal vHistory Hview)].
Qed.

Lemma dropOnSlot_flips_one_flag_witness :
  contentsAt (deckContents twoCards) 7
    = Some {| card := archers; isEvo := false |} ∧
  deckContents (dropOnSlot 7 "evo" twoCards)
    = <[7%nat := Some {| card := archers; isEvo := true |}]> (deckContents twoCards) ∧
  historyContents (dropOnSlot 7 "evo" twoCards)
    = lastN 10 (historyContents twoCards ++ [deckContents twoCards]).
Proof.
  split; [reflexivity|].
  exact (dropOnSlot_flips_one_flag [CardChosen knight; CardChosen archers] 7
           {| card := archers; isEvo := false |} eq_refl).
Defined.

(** X6. Dropping the star twice on the same occupied slot gives back the
    deck as it was, and leaves two entries more on the history: the deck
    before the first drop and the deck between the two. *)
Theorem dropOnSlot_twice (gs : list Gesture) (position : Z) (o : DeckSlotCard) :
  let t := run gs initial in
  contentsAt (deckContents t) position = Some o →
  deckContents (dropOnSlot position "evo" (dropOnSlot position "evo" t))
    = deckContents t ∧
  historyContents (dropOnSlot position "evo" (dropOnSlot position "evo" t))
    = lastN 10 (historyContents t
                  ++ [deckContents t;
                      <[Z.to_nat position := Some (flipEvo o)]> (deckContents t)]).
Proof.
  intros t Hat. destruct (reachable_invariants gs) as [Hwf _]. fold t in Hwf.
  pose proof (dropOnSlot_reachable_view gs position) as Hfirst. fold t in Hfirst.
  pose proof (dropOnSlot_reachable_view (gs ++ [Dropped position "evo"]) position)
    as Hsecond.
  unfold run in Hsecond. rewrite foldl_app in Hsecond.
  change (foldl (fun t g => handle g t) initial gs) with t in Hsecond.
  cbn [foldl handle] in Hsecond. rewrite Hfirst in Hsecond.
  rewrite (vDropOnSlot_occupied position (viewOf t) o) in Hsecond
    by (done || by apply historyContents_bounded).
  pose proof Hat as [_ Hlook]%contentsAt_Some.
  rewrite (vDropOnSlot_occupied position _ (flipEvo o)) in Hsecond.
  - cbn [vDeck vHistory vCards viewOf] in Hsecond.
    rewrite list_insert_insert_eq, flipEvo_twice, list_insert_id in Hsecond
      by done.
    rewrite lastN_app_lastN, <- app_assoc in Hsecond.
    split; [exact (f_equal vDeck Hsecond)|exact (f_equal vHistory Hsecond)].
  - apply lastN_length.
  - cbn [vDeck viewOf]. unfold contentsAt.
    destruct (Z.ltb_spec position 0) as [Hneg|_].
    + unfold contentsAt in Hat. apply Z.ltb_lt in Hneg. by rewrite Hneg in Hat.
    + rewrite list_lookup_insert_eq; [done|]. by eapply lookup_lt_Some.
Qed.

Lemma dropOnSlot_twice_witness :
  contentsAt (deckContents twoCards) 7
    = Some {| card := archers; isEvo := false |} ∧
  deckContents (dropOnSlot 7 "evo" (dropOnSlot 7 "evo" twoCards))
    = deckContents twoCards.
Proof.
  split; [reflexivity|].
  exact (proj1 (dropOnSlot_twice [CardChosen knight; CardChosen archers] 7
                  {| card := archers; isEvo := false |} eq_refl)).
Defined.

(** *** What a gesture leaves on the history *)

Lemma vSelectCard_pushes c v :
  length (vDeck v) = 8%nat →
  (length (vHistory v) ≤ 10)%nat →
  ∃ k, (1 ≤ k ≤ 2)%nat ∧
    vHistory (vSelectCard c v)
      = lastN 10 (vHistory v ++ replicate k (vDeck v)).
Proof.
  intros Hlen Hb. unfold vSelectCard.
  set (idx := vFindIndexFrom 0 (holdsName (name c)) (vDeck (vSaveState v))).
  destruct (Z.eqb_spec idx (-1)) as [_|Hfound]; cbn [negb].
  - exists 1%nat. split; [lia|]. cbn [vHistory vSaveState vDeck replicate].
    by rewrite shiftOverflow_lastN.
  - destruct (vFindIndexFrom_hit _ _ 0 idx eq_refl) as (slot & Hge & Hlook & Hhit);
      [done|done|].
    destruct slot as [o|]; [|done]. rewrite Z.sub_0_r in Hge, Hlook.
    rewrite (vCycleCard_occupied idx (vSaveState v) o); [| done |].
    + exists 2%nat. split; [lia|]. cbn [vHistory vSaveState vDeck replicate].
      rewrite (shiftOverflow_lastN (vHistory v)) by done.
      rewrite shiftOverflow_lastN by apply lastN_length.
      by rewrite lastN_app_lastN, <- app_assoc.
    + unfold contentsAt. destruct (Z.ltb_spec idx 0); [lia|].
      by rewrite Hlook.
Qed.

Lemma vHandle_pushes g v :
  g ≠ UndoClicked →
  length (vDeck v) = 8%nat →
  (length (vHistory v) ≤ 10)%nat →
  ∃ k, (k ≤ 2)%nat ∧
    vHistory (vHandle g v) = lastN 10 (vHistory v ++ replicate k (vDeck v)) ∧
    (k = 0%nat → vDeck (vHandle g v) = vDeck v).
Proof.
  intros Hg Hlen Hb.
  assert (∃ k, (k ≤ 2)%nat ∧
            vHistory v = lastN 10 (vHistory v ++ replicate k (vDeck v)) ∧
            (k = 0%nat → vDeck v = vDeck v)) as Hnothing.
  { exists 0%nat. split; [lia|]. cbn. by rewrite app_nil_r, lastN_short. }
  assert (∀ position, ∃ k, (k ≤ 2)%nat ∧
            vHistory (vCycleCard position v)
              = lastN 10 (vHistory v ++ replicate k (vDeck v)) ∧
            (k = 0%nat → vDeck (vCycleCard position v) = vDeck v)) as Hcycle.
  { intros position.
    destruct (contentsAt (vDeck v) position) as [o|] eqn:Hat.
    - rewrite (vCycleCard_occupied position v o) by done.
      exists 1%nat. split; [lia|]. cbn. by rewrite shiftOverflow_lastN.
    - unfold vCycleCard. by rewrite Hat. }
  assert (∀ c, ∃ k, (k ≤ 2)%nat ∧
            vHistory (vSelectCard c v)
              = lastN 10 (vHistory v ++ replicate k (vDeck v)) ∧
            (k = 0%nat → vDeck (vSelectCard c v) = vDeck v)) as Hselect.
  { intros c. destruct (vSelectCard_pushes c v Hlen Hb) as (k & Hk & Hhist).
    exists k. split; [lia|]. split; [done|]. lia. }
  destruct g; cbn [vHandle]; try done.
  - exists 1%nat. split; [lia|]. cbn. by rewrite shiftOverflow_lastN.
  - unfold vDropOnSlot.
    destruct (contentsAt (vDeck v) position) as [o|]; [|done].
    destruct (String.eqb data "evo"); [|done].
    exists 1%nat. split; [lia|]. cbn. by rewrite shiftOverflow_lastN.
  - destruct (JS.startsWith _ _); [|done].
    destruct (findBestCardMatch _ _); [apply Hselect|done].
Qed.

Lemma last_lastN {A} n (l : list A) x :
  (1 ≤ n)%nat → last (lastN n (l ++ [x])) = Some x.
Proof.
  intros Hn. unfold lastN. rewrite length_app. cbn [length].
  rewrite drop_app_le by lia. apply last_snoc.
Qed.

(** X7. In any state the tracker reaches, a gesture other than undo leaves
    the snapshots on the history as they are and pushes at most two
    entries, each equal to the deck as it was before the gesture; the
    history after it is the last 10 of the result.  A gesture that pushes
    nothing leaves the deck as it was. *)
Theorem gestures_only_push (gs : list Gesture) (g : Gesture) :
  let t := run gs initial in
  g ≠ UndoClicked →
  ∃ k, (k ≤ 2)%nat ∧
    historyContents (handle g t)
      = lastN 10 (historyContents t ++ replicate k (deckContents t)) ∧
    (k = 0%nat → deckContents (handle g t) = deckContents t).
Proof.
  intros t Hg. destruct (reachable_invariants gs) as [Hwf Hsep].
  fold t in Hwf, Hsep.
  pose proof (viewOf_handle g t Hwf Hsep) as Hview.
  destruct (vHandle_pushes g (viewOf t) Hg) as (k & Hk & Hhist & Hdeck).
  { by apply deckContents_length. }
  { by apply historyContents_bounded. }
  exists k. rewrite <- Hview in Hhist, Hdeck. done.
Qed.

Lemma gestures_only_push_witness :
  CardChosen knight ≠ UndoClicked ∧
  ∃ k, (k ≤ 2)%nat ∧
    historyContents (handle (CardChosen knight) twoCards)
      = lastN 10 (historyContents twoCards ++ replicate k (deckContents twoCards)) ∧
    (k = 0%nat →
     deckContents (handle (CardChosen knight) twoCards) = deckContents twoCards).
Proof.
  assert (CardChosen knight ≠ UndoClicked) as Hg by discriminate.
  split; [done|].
  exact (gestures_only_push [CardChosen knight; CardChosen archers]
           (CardChosen knight) Hg).
Defined.

(** X8. In any state the tracker reaches, whatever a gesture other than
    undo does to the deck, one undo right after it shows the deck as it was
    before the gesture. *)
Theorem one_undo_reverts (gs : list Gesture) (g : Gesture) :
  let t := run gs initial in
  g ≠ UndoClicked →
  deckContents (handle g t) = deckContents t ∨
  deckContents (undo (handle g t)) = deckContents t.
Proof.
  intros t Hg. destruct (reachable_invariants gs) as [Hwf Hsep].
  fold t in Hwf, Hsep.
  pose proof (viewOf_handle g t Hwf Hsep) as Hview.
  destruct (vHandle_pushes g (viewOf t) Hg) as (k & Hk & Hhist & Hdeck).
  { by apply deckContents_length. }
  { by apply historyContents_bounded. }
  rewrite <- Hview in Hhist, Hdeck.
  destruct k as [|k]; [left; by apply Hdeck|right].
  pose proof (f_equal vDeck (viewOf_undo (handle g t))) as Hundo.
  cbn [vDeck viewOf] in Hundo. rewrite Hundo. unfold vUndo.
  cbn [vHistory viewOf] in *. rewrite Hhist, replicate_S_end, app_assoc.
  by rewrite last_lastN by lia.
Qed.

Lemma one_undo_reverts_witness :
  Dropped 7 "evo" ≠ UndoClicked ∧
  (deckContents (handle (Dropped 7 "evo") twoCards) = deckContents twoCards ∨
   deckContents (undo (handle (Dropped 7 "evo") twoCards)) = deckContents twoCards).
Proof.
  assert (Dropped 7 "evo" ≠ UndoClicked) as Hg by discriminate.
  split; [done|].
  exact (one_undo_reverts [CardChosen knight; CardChosen archers]
           (Dropped 7 "evo") Hg).
Defined.

(** *** Repeated undo *)

Lemma viewOf_undo_iter k t :
  viewOf (Nat.iter k undo t) = Nat.iter k vUndo (viewOf t).
Proof.
  induction k as [|k IH]; [done|].
  by rewrite !Nat.iter_succ, viewOf_undo, IH.
Qed.

Lemma vUndo_iter k : ∀ v,
  (k ≤ length (vHistory v))%nat →
  vHistory (Nat.iter k vUndo v)
    = take (length (vHistory v) - k) (vHistory v) ∧
  ((1 ≤ k)%nat →
   vHistory v !! (length (vHistory v) - k)%nat
     = Some (vDeck (Nat.iter k vUndo v))).
Proof.
  induction k as [|k IH]; intros v Hk.
  - cbn. split; [|lia]. by rewrite Nat.sub_0_r, firstn_all.
  - destruct (IH v) as [Hhist _]; [lia|].
    rewrite Nat.iter_succ. set (w := Nat.iter k vUndo v) in *.
    assert (last (vHistory w)
            = vHistory v !! (length (vHistory v) - S k)%nat) as Hlast.
    { rewrite last_lookup, Hhist, length_take, lookup_take_lt by lia.
      f_equal. lia. }
    destruct (lookup_lt_is_Some_2 (vHistory v) (length (vHistory v) - S k))
      as [top Htop]; [lia|].
    unfold vUndo. rewrite Hlast, Htop. cbn [vHistory vDeck].
    split; [|done].
    rewrite Hhist, length_take, take_take. f_equal. lia.
Qed.

(** X9. [k] undos in a row, with at least [k] snapshots on the history,
    show the deck of the [k]-th most recent snapshot and leave the older
    snapshots on the history, untouched and in order. *)
Theorem undo_walks_back (t : DeckTracker) (k : nat) :
  (1 ≤ k ≤ length (history t))%nat →
  historyContents t !! (length (history t) - k)%nat
    = Some (deckContents (Nat.iter k undo t)) ∧
  historyContents (Nat.iter k undo t)
    = take (length (history t) - k) (historyContents t).
Proof.
  intros [Hk1 Hk2].
  assert (length (vHistory (viewOf t)) = length (history t)) as Hlen
    by apply length_map.
  destruct (vUndo_iter k (viewOf t)) as [Hhist Hdeck]; [lia|].
  rewrite <- viewOf_undo_iter, Hlen in Hhist, Hdeck.
  split; [by apply Hdeck|done].
Qed.

Lemma undo_walks_back_witness :
  (1 ≤ 2 ≤ length (history twoCards))%nat ∧
  historyContents twoCards !! (length (history twoCards) - 2)%nat
    = Some (deckContents (Nat.iter 2 undo twoCards)) ∧
  historyContents (Nat.iter 2 undo twoCards)
    = take (length (history twoCards) - 2) (historyContents twoCards).
Proof.
  assert (1 ≤ 2 ≤ length (history twoCards))%nat as Hk by (vm_compute; lia).
  split; [done|]. exact (undo_walks_back twoCards 2 Hk).
Defined.

Lemma undo_history_length t :
  length (history (undo t)) = (length (history t) - 1)%nat.
Proof.
  unfold undo. destruct (last (history t)) eqn:Hlast; cbn.
  - rewrite length_take. lia.
  - apply last_None in Hlast. by rewrite Hlast.
Qed.

Lemma undo_iter_history_length k t :
  length (history (Nat.iter k undo t)) = (length (history t) - k)%nat.
Proof.
  induction k as [|k IH]; [cbn; lia|].
  rewrite Nat.iter_succ, undo_history_length, IH. lia.
Qed.

Lemma undo_nothing_left t : history t = [] → undo t = t.
Proof. intros Hempty. unfold undo. by rewrite Hempty. Qed.

(** X10. Undo reaches back 10 steps and no further: in any state the
    tracker reaches, 10 undos empty the history, and every undo after them
    changes nothing. *)
Theorem undo_depth_is_ten (gs : list Gesture) (k : nat) :
  let t := run gs initial in
  (10 ≤ k)%nat →
  history (Nat.iter k undo t) = [] ∧
  Nat.iter k undo t = Nat.iter 10 undo t.
Proof.
  intros t Hk. destruct (reachable_invariants gs) as [Hwf _]. fold t in Hwf.
  pose proof (history_bounded t Hwf) as Hb.
  assert (∀ n, (10 ≤ n)%nat → history (Nat.iter n undo t) = []) as Hempty.
  { intros n Hn. apply length_zero_iff_nil.
    rewrite undo_iter_history_length. lia. }
  split; [by apply Hempty|].
  replace k with ((k - 10) + 10)%nat by lia.
  induction (k - 10)%nat as [|m IH]; [done|].
  cbn [Nat.add]. rewrite Nat.iter_succ, IH.
  apply undo_nothing_left, Hempty. lia.
Qed.

Lemma undo_depth_is_ten_witness :
  (10 ≤ 12)%nat ∧
  history (Nat.iter 12 undo twoCards) = [] ∧
  Nat.iter 12 undo twoCards = Nat.iter 10 undo twoCards.
Proof.
  assert (10 ≤ 12)%nat as Hk by lia.
  split; [done|].
  exact (undo_depth_is_ten [CardChosen knight; CardChosen archers] 12 Hk).
Defined.

(** *** Names in the deck *)

Lemma namesOf_app D1 D2 : namesOf (D1 ++ D2) = namesOf D1 ++ namesOf D2.
Proof. apply bind_app. Qed.

Lemma namesOf_submseteq D1 D2 : D1 ⊆+ D2 → namesOf D1 ⊆+ namesOf D2.
Proof. intros Hsub. unfold namesOf. by rewrite Hsub. Qed.

Lemma elem_of_namesOf cardName D :
  cardName ∈ namesOf D ↔ ∃ o, Some o ∈ D ∧ name (card o) = cardName.
Proof.
  unfold namesOf. rewrite list_elem_of_bind. split.
  - intros ([o|] & Hname & Hin); cbn in Hname;
      [|by apply not_elem_of_nil in Hname].
    apply list_elem_of_singleton in Hname. by exists o.
  - intros (o & Hin & <-). exists (Some o). split; [apply list_elem_of_here|done].
Qed.

Lemma namesOf_alter_flipEvo D : ∀ i,
  namesOf (alter (fmap flipEvo) i D) = namesOf D.
Proof.
  induction D as [|slot D IH]; intros i; [done|].
  destruct i as [|i].
  - by destruct slot.
  - change (alter (fmap flipEvo) (S i) (slot :: D))
      with (slot :: alter (fmap flipEvo) i D).
    change (namesOf (slot :: alter (fmap flipEvo) i D))
      with (option_list (name ∘ card <$> slot)
              ++ namesOf (alter (fmap flipEvo) i D)).
    by rewrite IH.
Qed.

Lemma vFindIndexFrom_none hit D : ∀ i,
  0 ≤ i → vFindIndexFrom i hit D = -1 →
  Forall (fun slot => hit slot = false) D.
Proof.
  induction D as [|slot D IH]; intros i Hi Hfind; [constructor|].
  cbn in Hfind. destruct (hit slot) eqn:Hhit; [lia|].
  constructor; [done|]. apply (IH (i + 1)); [lia|done].
Qed.

Lemma cycled_submseteq D i (o : DeckSlotCard) :
  D !! i = Some (Some o) → delete i D ++ [Some o] ⊆+ D.
Proof.
  intros Hlook. apply Permutation_submseteq.
  rewrite (delete_Permutation _ _ _ Hlook) at 2.
  by rewrite <- Permutation_cons_append.
Qed.

Lemma vSaveState_uniqueNames v : uniqueNames v → uniqueNames (vSaveState v).
Proof.
  intros [Hd Hh]. split; [done|]. cbn.
  apply shiftOverflow_Forall, Forall_app. split; [done|].
  by constructor.
Qed.

Lemma vCycleCard_uniqueNames position v :
  length (vDeck v) = 8%nat → uniqueNames v → uniqueNames (vCycleCard position v).
Proof.
  intros Hlen Hu. destruct (contentsAt (vDeck v) position) as [o|] eqn:Hat.
  - rewrite (vCycleCard_occupied position v o) by done.
    destruct (vSaveState_uniqueNames v Hu) as [Hd Hh]. split; [|done].
    apply contentsAt_Some in Hat as [_ Hlook].
    eapply submseteq_NoDup; [|exact Hd].
    by apply namesOf_submseteq, cycled_submseteq.
  - unfold vCycleCard. by rewrite Hat.
Qed.

Lemma vSelectCard_uniqueNames c v :
  length (vDeck v) = 8%nat → uniqueNames v → uniqueNames (vSelectCard c v).
Proof.
  intros Hlen Hu. unfold vSelectCard.
  pose proof (vSaveState_uniqueNames v Hu) as Hu1.
  set (idx := vFindIndexFrom 0 (holdsName (name c)) (vDeck (vSaveState v))).
  destruct (Z.eqb_spec idx (-1)) as [Hnone|_]; cbn [negb];
    [|by apply vCycleCard_uniqueNames].
  destruct Hu1 as [Hd Hh]. split; [|done]. cbn [vDeck vSaveState] in *.
  rewrite namesOf_app. apply NoDup_app. split; [|split].
  - eapply submseteq_NoDup; [|exact Hd].
    apply namesOf_submseteq, sublist_submseteq, sublist_drop.
  - intros cardName Hin Hnew. cbn in Hnew.
    apply list_elem_of_singleton in Hnew. subst cardName.
    apply elem_of_namesOf in Hin as (o & Hin & Hname).
    apply (vFindIndexFrom_none _ _ 0) in Hnone; [|done].
    rewrite Forall_forall in Hnone.
    assert (Some o ∈ vDeck v) as Hin'.
    { eapply elem_of_submseteq; [exact Hin|].
      apply sublist_submseteq, sublist_drop. }
    specialize (Hnone _ Hin'). cbn in Hnone.
    apply String.eqb_neq in Hnone. done.
  - cbn. apply NoDup_singleton.
Qed.

Lemma vUndo_uniqueNames v : uniqueNames v → uniqueNames (vUndo v).
Proof.
  intros [Hd Hh]. unfold vUndo.
  destruct (last (vHistory v)) as [snapshot|] eqn:Hlast; [|done].
  apply last_Some in Hlast as [older Hhist]. rewrite Hhist in *.
  apply Forall_app in Hh as [Holder Htop]. apply Forall_cons in Htop as [Htop _].
  split; cbn; [done|].
  rewrite length_app. cbn [length].
  replace (length older + 1 - 1)%nat with (length older) by lia.
  by rewrite take_app_length.
Qed.

Lemma vHandle_uniqueNames g v :
  length (vDeck v) = 8%nat → uniqueNames v → uniqueNames (vHandle g v).
Proof.
  intros Hlen Hu. destruct g; cbn [vHandle].
  - done.
  - by apply vSaveState_uniqueNames.
  - by apply vSelectCard_uniqueNames.
  - by apply vCycleCard_uniqueNames.
  - by apply vCycleCard_uniqueNames.
  - unfold vDropOnSlot. destruct (contentsAt _ _); [|done].
    destruct (String.eqb _ _); [|done].
    destruct (vSaveState_uniqueNames v Hu) as [Hd Hh]. split; [|done].
    cbn [vDeck]. by rewrite namesOf_alter_flipEvo.
  - by apply vUndo_uniqueNames.
  - destruct (JS.startsWith _ _); [|done].
    destruct (findBestCardMatch _ _); [|done].
    by apply vSelectCard_uniqueNames.
Qed.

Lemma run_uniqueNames gs : ∀ t,
  wellFormed t → separated t → uniqueNames (viewOf t) →
  uniqueNames (viewOf (run gs t)).
Proof.
  induction gs as [|g gs IH]; intros t Hwf Hsep Hu; [done|].
  change (run (g :: gs) t) with (run gs (handle g t)).
  apply IH.
  - by apply handle_wellFormed.
  - by apply handle_separated.
  - rewrite viewOf_handle by done.
    apply vHandle_uniqueNames; [by apply deckContents_length|done].
Qed.

(** X11. In every state the tracker reaches, no two slots of the deck hold
    cards of the same name, and the same goes for every snapshot on the
    history. *)
Theorem names_never_repeat (gs : list Gesture) :
  NoDup (namesOf (deckContents (run gs initial))) ∧
  Forall (fun D => NoDup (namesOf D)) (historyContents (run gs initial)).
Proof.
  apply (run_uniqueNames gs initial initial_wellFormed initial_separated).
  split; cbn; constructor.
Qed.

(** *** Where the empty slots are *)

Lemma all_occupied_nullsFirst {A} (d : list (option A)) :
  Forall is_Some d → nullsFirst d.
Proof.
  induction 1 as [|slot d Hslot Hd IH]; [done|].
  destruct slot; [done|]. by destruct Hslot.
Qed.

Lemma nullsFirst_append {A} (d : list (option A)) (x : A) :
  nullsFirst d → nullsFirst (d ++ [Some x]).
Proof.
  induction d as [|[y|] d IH]; cbn.
  - constructor.
  - intros Hd. apply Forall_app. split; [done|]. constructor; [eauto|constructor].
  - done.
Qed.

Lemma nullsFirst_delete {A} (d : list (option A)) : ∀ i,
  nullsFirst d → nullsFirst (delete i d).
Proof.
  induction d as [|[y|] d IH]; intros i Hd; [done| |].
  - destruct i as [|i]; cbn in *.
    + by apply all_occupied_nullsFirst.
    + by apply Forall_delete.
  - destruct i as [|i]; cbn in *; [done|by apply IH].
Qed.

Lemma nullsFirst_drop {A} (d : list (option A)) : ∀ n,
  nullsFirst d → nullsFirst (drop n d).
Proof.
  induction d as [|[y|] d IH]; intros [|n] Hd; try done.
  - cbn in *. by apply all_occupied_nullsFirst, Forall_drop.
  - cbn in *. by apply IH.
Qed.

Lemma all_occupied_alter {A} (f : A → A) (d : list (option A)) i :
  Forall is_Some d → Forall is_Some (alter (fmap f) i d).
Proof.
  intros Hd. apply Forall_lookup. intros j slot Hj.
  destruct (decide (j = i)) as [->|Hne].
  - rewrite list_lookup_alter_eq in Hj.
    destruct (d !! i) as [slot'|] eqn:Hi; [|done].
    injection Hj as <-.
    destruct (Forall_lookup_1 _ _ _ _ Hd Hi) as [x ->]. cbn. eauto.
  - rewrite list_lookup_alter_ne in Hj by done.
    by apply (Forall_lookup_1 _ _ _ _ Hd Hj).
Qed.

Lemma nullsFirst_alter {A} (f : A → A) (d : list (option A)) : ∀ i,
  nullsFirst d → nullsFirst (alter (fmap f) i d).
Proof.
  induction d as [|[y|] d IH]; intros i Hd; [done| |].
  - destruct i as [|i]; [done|].
    change (Forall is_Some (alter (fmap f) i d)). by apply all_occupied_alter.
  - destruct i as [|i]; [done|].
    change (nullsFirst (alter (fmap f) i d)). by apply IH.
Qed.

Lemma nullsFirst_head {A} (d : list (option A)) :
  nullsFirst d → None ∈ d → d !! 0%nat = Some None.
Proof.
  destruct d as [|[y|] d]; cbn.
  - by intros _ ?%not_elem_of_nil.
  - intros Hd Hin. apply elem_of_cons in Hin as [|Hin]; [done|].
    rewrite Forall_forall in Hd. by destruct (Hd _ Hin).
  - done.
Qed.

Lemma vSaveState_filled v : filledFromTheRight v → filledFromTheRight (vSaveState v).
Proof.
  intros [Hd Hh]. split; [done|]. cbn.
  apply shiftOverflow_Forall, Forall_app. split; [done|]. by constructor.
Qed.

Lemma vCycleCard_filled position v :
  length (vDeck v) = 8%nat →
  filledFromTheRight v → filledFromTheRight (vCycleCard position v).
Proof.
  intros Hlen Hf. destruct (contentsAt (vDeck v) position) as [o|] eqn:Hat.
  - rewrite (vCycleCard_occupied position v o) by done.
    destruct (vSaveState_filled v Hf) as [Hd Hh]. split; [|done].
    cbn. by apply nullsFirst_append, nullsFirst_delete.
  - unfold vCycleCard. by rewrite Hat.
Qed.

Lemma vSelectCard_filled c v :
  length (vDeck v) = 8%nat →
  filledFromTheRight v → filledFromTheRight (vSelectCard c v).
Proof.
  intros Hlen Hf. unfold vSelectCard.
  pose proof (vSaveState_filled v Hf) as Hf1.
  destruct (negb _); [by apply vCycleCard_filled|].
  destruct Hf1 as [Hd Hh]. split; [|done].
  cbn. by apply nullsFirst_append, nullsFirst_drop.
Qed.

Lemma vUndo_filled v : filledFromTheRight v → filledFromTheRight (vUndo v).
Proof.
  intros [Hd Hh]. unfold vUndo.
  destruct (last (vHistory v)) as [snapshot|] eqn:Hlast; [|done].
  apply last_Some in Hlast as [older Hhist]. rewrite Hhist in *.
  apply Forall_app in Hh as [Holder Htop]. apply Forall_cons in Htop as [Htop _].
  split; cbn; [done|].
  rewrite length_app. cbn [length].
  replace (length older + 1 - 1)%nat with (length older) by lia.
  by rewrite take_app_length.
Qed.

Lemma vHandle_filled g v :
  length (vDeck v) = 8%nat →
  filledFromTheRight v → filledFromTheRight (vHandle g v).
Proof.
  intros Hlen Hf. destruct g; cbn [vHandle].
  - done.
  - by apply vSaveState_filled.
  - by apply vSelectCard_filled.
  - by apply vCycleCard_filled.
  - by apply vCycleCard_filled.
  - unfold vDropOnSlot. destruct (contentsAt _ _); [|done].
    destruct (String.eqb _ _); [|done].
    destruct (vSaveState_filled v Hf) as [Hd Hh]. split; [|done].
    cbn [vDeck]. by apply nullsFirst_alter.
  - by apply vUndo_filled.
  - destruct (JS.startsWith _ _); [|done].
    destruct (findBestCardMatch _ _); [|done].
    by apply vSelectCard_filled.
Qed.

Lemma run_filled gs : ∀ t,
  wellFormed t → separated t → filledFromTheRight (viewOf t) →
  filledFromTheRight (viewOf (run gs t)).
Proof.
  induction gs as [|g gs IH]; intros t Hwf Hsep Hf; [done|].
  change (run (g :: gs) t) with (run gs (handle g t)).
  apply IH.
  - by apply handle_wellFormed.
  - by apply handle_separated.
  - rewrite viewOf_handle by done.
    apply vHandle_filled; [by apply deckContents_length|done].
Qed.

Lemma reachable_filled gs : filledFromTheRight (viewOf (run gs initial)).
Proof.
  apply (run_filled gs initial initial_wellFormed initial_separated).
  split; cbn; constructor.
Qed.

(** X12. In every state the tracker reaches the deck fills from the right:
    empty slots come before occupied ones, in the deck and in every
    snapshot.  So while a slot is empty, slot 0 is, and choosing a card
    -- new or already there -- loses none of the cards in the deck. *)
Theorem deck_fills_from_the_right (gs : list Gesture) (c : CardRecord) :
  let t := run gs initial in
  nullsFirst (deckContents t) ∧
  Forall nullsFirst (historyContents t) ∧
  (None ∈ deckContents t →
   ∀ o, Some o ∈ deckContents t → Some o ∈ deckContents (selectCard c t)).
Proof.
  intros t. destruct (reachable_invariants gs) as [Hwf _]. fold t in Hwf.
  destruct (reachable_filled gs) as [Hd Hh]. fold t in Hd, Hh.
  cbn [vDeck vHistory viewOf] in Hd, Hh.
  split; [done|]. split; [done|]. intros Hempty o Hin.
  pose proof (f_equal vDeck (viewOf_selectCard c t Hwf)) as Hdeck.
  cbn [vDeck viewOf] in Hdeck. rewrite Hdeck. unfold vSelectCard.
  set (idx := vFindIndexFrom 0 (holdsName (name c)) (vDeck (vSaveState (viewOf t)))).
  destruct (Z.eqb_spec idx (-1)) as [_|Hfound]; cbn [negb].
  - cbn [vDeck vSaveState viewOf]. apply elem_of_app. left.
    pose proof (nullsFirst_head _ Hd Hempty) as Hhead.
    destruct (deckContents t) as [|slot D]; [done|].
    injection Hhead as ->. cbn. rewrite drop_0.
    by apply elem_of_cons in Hin as [|Hin].
  - destruct (vFindIndexFrom_hit _ _ 0 idx eq_refl) as (slot & Hge & Hlook & Hhit);
      [done|done|].
    destruct slot as [o'|]; [|done]. rewrite Z.sub_0_r in Hge, Hlook.
    cbn [vDeck vSaveState viewOf] in Hlook.
    rewrite (vCycleCard_occupied idx _ o').
    + cbn [vDeck vSaveState viewOf].
      eapply elem_of_Permutation_proper; [|exact Hin].
      rewrite (delete_Permutation _ _ _ Hlook) at 2.
      by rewrite <- Permutation_cons_append.
    + by apply deckContents_length.
    + unfold contentsAt. destruct (Z.ltb_spec idx 0); [lia|].
      cbn [vDeck vSaveState viewOf]. by rewrite Hlook.
Qed.

(** The chosen card ends in the last slot. *)
Lemma selectCard_last_slot (c : CardRecord) (t : DeckTracker) :
  wellFormed t →
  ∃ o, deckContents (selectCard c t) !! 7%nat = Some (Some o) ∧
       name (card o) = name c.
Proof.
  intros Hwf.
  pose proof (deckContents_length t Hwf) as Hlen.
  pose proof (f_equal vDeck (viewOf_selectCard c t Hwf)) as Hdeck.
  cbn [vDeck viewOf] in Hdeck. rewrite Hdeck. unfold vSelectCard.
  set (idx := vFindIndexFrom 0 (holdsName (name c)) (vDeck (vSaveState (viewOf t)))).
  destruct (Z.eqb_spec idx (-1)) as [_|Hfound]; cbn [negb].
  - exists {| card := c; isEvo := false |}. split; [|done].
    cbn [vDeck vSaveState viewOf].
    rewrite lookup_app_r; rewrite length_drop, Hlen; [done|lia].
  - destruct (vFindIndexFrom_hit _ _ 0 idx eq_refl) as (slot & Hge & Hlook & Hhit);
      [done|done|].
    destruct slot as [o|]; [|done]. rewrite Z.sub_0_r in Hge, Hlook.
    cbn [vDeck vSaveState viewOf] in Hlook.
    exists o. split; [|by apply String.eqb_eq].
    rewrite (vCycleCard_occupied idx _ o).
    + cbn [vDeck vSaveState viewOf].
      rewrite lookup_app_r; rewrite length_delete, Hlen by eauto; [done|lia].
    + done.
    + unfold contentsAt. destruct (Z.ltb_spec idx 0); [lia|].
      cbn [vDeck vSaveState viewOf]. by rewrite Hlook.
Qed.

(** X13. After [selectCard(card)], in any state the tracker reaches, slot 7
    holds a card with the name of the chosen one. *)
Theorem selectCard_fills_last_slot (gs : list Gesture) (c : CardRecord) :
  ∃ o, deckContents (selectCard c (run gs initial)) !! 7%nat = Some (Some o) ∧
       name (card o) = name c.
Proof. apply selectCard_last_slot, reachable_invariants. Qed.

End Contents.

(** ** The matcher and the spoken text *)

Section SpokenText.

Lemma lowerChar_twice c : JS.lowerChar (JS.lowerChar c) = JS.lowerChar c.
Proof. by destruct c as [[] [] [] [] [] [] [] []]. Qed.

Lemma lowerChar_whiteSpace c : JS.isWhiteSpace (JS.lowerChar c) = JS.isWhiteSpace c.
Proof. by destruct c as [[] [] [] [] [] [] [] []]. Qed.

Lemma toLowerCase_twice s : JS.toLowerCase (JS.toLowerCase s) = JS.toLowerCase s.
Proof.
  induction s as [|c s IH]; [done|].
  cbn. by rewrite lowerChar_twice, IH.
Qed.

Lemma toLowerCase_trimStart s :
  JS.toLowerCase (JS.trimStart s) = JS.trimStart (JS.toLowerCase s).
Proof.
  induction s as [|c s IH]; [done|].
  cbn. rewrite lowerChar_whiteSpace. by destruct (JS.isWhiteSpace c).
Qed.

Lemma toLowerCase_trimEnd s :
  JS.toLowerCase (JS.trimEnd s) = JS.trimEnd (JS.toLowerCase s).
Proof.
  induction s as [|c s IH]; [done|].
  cbn. rewrite <- IH, lowerChar_whiteSpace.
  destruct (JS.trimEnd s); cbn; [by destruct (JS.isWhiteSpace c)|done].
Qed.

Lemma toLowerCase_trim s : JS.toLowerCase (JS.trim s) = JS.trim (JS.toLowerCase s).
Proof. unfold JS.trim. by rewrite toLowerCase_trimEnd, toLowerCase_trimStart. Qed.

Lemma trimEnd_twice s : JS.trimEnd (JS.trimEnd s) = JS.trimEnd s.
Proof.
  induction s as [|c s IH]; [done|].
  cbn. destruct (JS.trimEnd s) as [|c' s'] eqn:Hend.
  - destruct (JS.isWhiteSpace c) eqn:Hws; [done|]. cbn. by rewrite Hws.
  - cbn. cbn in IH. by rewrite IH.
Qed.

Lemma trimStart_startsClean s : startsClean (JS.trimStart s).
Proof.
  induction s as [|c s IH]; [done|].
  cbn. by destruct (JS.isWhiteSpace c) eqn:Hws.
Qed.

Lemma trimStart_clean s : startsClean s → JS.trimStart s = s.
Proof. destruct s as [|c s]; [done|]. cbn. by intros ->. Qed.

Lemma trimEnd_startsClean s : startsClean s → startsClean (JS.trimEnd s).
Proof.
  destruct s as [|c s]; [done|]. cbn. intros Hws.
  destruct (JS.trimEnd s); cbn; by rewrite ?Hws.
Qed.

Lemma trim_twice s : JS.trim (JS.trim s) = JS.trim s.
Proof.
  unfold JS.trim.
  rewrite (trimStart_clean (JS.trimEnd _))
    by apply trimEnd_startsClean, trimStart_startsClean.
  apply trimEnd_twice.
Qed.

Lemma findBestCardMatch_same_spoken (cs : Catalog) s1 s2 :
  JS.trim (JS.toLowerCase s1) = JS.trim (JS.toLowerCase s2) →
  findBestCardMatch cs s1 = findBestCardMatch cs s2.
Proof. intros Hsame. unfold findBestCardMatch. by rewrite Hsame. Qed.

(** X14. [findBestCardMatch] does not tell upper case from lower case in
    the spoken text, nor white space around it: lower-casing or trimming
    the text beforehand never changes the answer. *)
Theorem findBestCardMatch_ignores_case_and_blanks (cs : Catalog) (s : string) :
  findBestCardMatch cs (JS.toLowerCase s) = findBestCardMatch cs s ∧
  findBestCardMatch cs (JS.trim s) = findBestCardMatch cs s.
Proof.
  split; apply findBestCardMatch_same_spoken.
  - by rewrite toLowerCase_twice.
  - by rewrite toLowerCase_trim, trim_twice.
Qed.

(** The exact name tier finds the card whose name is said. *)
Lemma own_name_is_found (cs : Catalog) (c : CardRecord) (s : string) :
  In c (allCards cs) →
  JS.trim (name c) = name c →
  (∀ c', In c' (allCards cs) →
         JS.toLowerCase (name c') = JS.toLowerCase (name c) → c' = c) →
  JS.toLowerCase s = JS.toLowerCase (name c) →
  findBestCardMatch cs s = Some c.
Proof.
  intros Hin Htrim Hunique Hs.
  rewrite findBestCardMatch_firstHit. cbn [firstHit].
  rewrite Hs, <- toLowerCase_trim, Htrim.
  destruct (List.find (exactName _) _) as [c'|] eqn:Hfind.
  - apply find_some in Hfind as [Hin' Hhit].
    apply String.eqb_eq in Hhit. by rewrite (Hunique c' Hin' Hhit).
  - pose proof (find_none _ _ Hfind c Hin) as Hmiss.
    unfold exactName in Hmiss. by rewrite String.eqb_refl in Hmiss.
Qed.

(** X15. Saying a card's name finds that card: when the name has no white
    space around it and no other card of the catalog has the same name up
    to case, [findBestCardMatch] answers the name, in any mix of upper and
    lower case, with the card. *)
Theorem findBestCardMatch_own_name (cs : Catalog) (c : CardRecord) (s : string) :
  In c (allCards cs) →
  JS.trim (name c) = name c →
  (∀ c', In c' (allCards cs) →
         JS.toLowerCase (name c') = JS.toLowerCase (name c) → c' = c) →
  JS.toLowerCase s = JS.toLowerCase (name c) →
  findBestCardMatch cs s = Some c.
Proof. apply own_name_is_found. Qed.

Lemma findBestCardMatch_own_name_witness :
  (In archers (allCards smallCatalog) ∧
   JS.trim (name archers) = name archers ∧
   (∀ c', In c' (allCards smallCatalog) →
          JS.toLowerCase (name c') = JS.toLowerCase (name archers) → c' = archers) ∧
   JS.toLowerCase "ARCHERS" = JS.toLowerCase (name archers)) ∧
  findBestCardMatch smallCatalog "ARCHERS" = Some archers.
Proof.
  assert (In archers (allCards smallCatalog)) as Hin by (right; left; reflexivity).
  assert (∀ c', In c' (allCards smallCatalog) →
            JS.toLowerCase (name c') = JS.toLowerCase (name archers) → c' = archers)
    as Hunique.
  { intros c' [<-|[<-|[<-|[]]]] Hname; (done || discriminate). }
  split; [repeat split; done|].
  exact (findBestCardMatch_own_name smallCatalog archers "ARCHERS"
           Hin eq_refl Hunique eq_refl).
Defined.

(** X16. [findBestCardMatch] answers with cards of the catalog only. *)
Theorem findBestCardMatch_from_catalog (cs : Catalog) (s : string)
    (r : CardRecord) :
  findBestCardMatch cs s = Some r → In r (allCards cs).
Proof.
  rewrite findBestCardMatch_firstHit. intros Hr.
  by apply firstHit_Some in Hr as [Hin _].
Qed.

Lemma findBestCardMatch_from_catalog_witness :
  findBestCardMatch smallCatalog "archer" = Some archers ∧
  In archers (allCards smallCatalog).
Proof.
  split; [reflexivity|].
  exact (findBestCardMatch_from_catalog smallCatalog "archer" archers eq_refl).
Defined.

(** X17. While the catalog holds no card -- before [cards.json] has
    arrived, or after loading it failed -- every heard transcript leaves
    the tracker as it is, and one that starts with "add " is answered with
    the "Card not found" notification. *)
Theorem no_cards_no_change (t : DeckTracker) (heard : string) :
  allCards (cards t) = [] →
  fst (onresult heard t) = t ∧
  (JS.startsWith (JS.toLowerCase heard) "add " = true →
   In (Notification
         ("Card not found: " +:+ JS.trim (JS.substring 4 (JS.toLowerCase heard))))
      (snd (onresult heard t))).
Proof.
  intros Hnone.
  assert (∀ s, findBestCardMatch (cards t) s = None) as Hmiss.
  { intros s. rewrite findBestCardMatch_firstHit, Hnone.
    by apply firstHit_None. }
  unfold onresult, processVoiceCommand, addCardByVoice.
  destruct (JS.startsWith _ _); [|done].
  rewrite Hmiss. split; [done|]. intros _. cbn. auto.
Qed.

Lemma no_cards_no_change_witness :
  allCards (cards initial) = [] ∧
  fst (onresult "Add Knight" initial) = initial ∧
  (JS.startsWith (JS.toLowerCase "Add Knight") "add " = true →
   In (Notification "Card not found: knight") (snd (onresult "Add Knight" initial))).
Proof.
  split; [reflexivity|].
  exact (no_cards_no_change initial "Add Knight" eq_refl).
Defined.

(** X18. Whatever is heard, the tracker either stays as it is or is the
    result of [selectCard] on a card of the catalog: the voice layer adds
    no card the catalog does not hold, and does nothing else to the
    deck. *)
Theorem voice_only_selects_catalog_cards (t : DeckTracker) (heard : string) :
  fst (onresult heard t) = t ∨
  ∃ c, In c (allCards (cards t)) ∧ fst (onresult heard t) = selectCard c t.
Proof.
  unfold onresult, processVoiceCommand, addCardByVoice.
  destruct (JS.startsWith _ _); [|by left].
  destruct (findBestCardMatch _ _) as [c|] eqn:Hmatch; [|by left].
  right. exists c. split; [|done].
  rewrite findBestCardMatch_firstHit in Hmatch.
  by apply firstHit_Some in Hmatch as [Hin _].
Qed.

Lemma cardNames_fold (cs : Catalog) : ∀ names,
  foldl (fun names group =>
           foldl (fun names c => names ++ [JS.toLowerCase (name c)])
                 names (snd group))
        names cs
  = names ++ map (fun c => JS.toLowerCase (name c)) (allCards cs).
Proof.
  assert (∀ (group : list CardRecord) names,
            foldl (fun names c => names ++ [JS.toLowerCase (name c)]) names group
            = names ++ map (fun c => JS.toLowerCase (name c)) group) as Hgroup.
  { induction group as [|c group IH]; intros names; cbn.
    - by rewrite app_nil_r.
    - by rewrite IH, <- app_assoc. }
  induction cs as [|[cost group] cs IH]; intros names; cbn.
  - by rewrite app_nil_r.
  - rewrite Hgroup, IH. unfold allCards. cbn.
    by rewrite map_app, app_assoc.
Qed.

(** X19. [cardNames], built by [loadCards], lists the lower-cased name of
    every card in catalog order, and holds exactly the texts the matcher
    answers with an exact name match: the lower-cased, trimmed spoken text
    is in [cardNames] if and only if [findBestCardMatch] returns a card
    whose lower-cased name is that text. *)
Theorem cardNames_are_the_exact_matches (cs : Catalog) (s : string) :
  cardNames cs = map (fun c => JS.toLowerCase (name c)) (allCards cs) ∧
  (In (JS.trim (JS.toLowerCase s)) (cardNames cs) ↔
   ∃ c, findBestCardMatch cs s = Some c ∧
        JS.toLowerCase (name c) = JS.trim (JS.toLowerCase s)).
Proof.
  assert (cardNames cs = map (fun c => JS.toLowerCase (name c)) (allCards cs))
    as Hnames by apply (cardNames_fold cs []).
  split; [done|]. rewrite Hnames, in_map_iff.
  rewrite findBestCardMatch_firstHit. cbn [firstHit]. split.
  - intros (c & Hname & Hin).
    destruct (List.find (exactName _) _) as [c'|] eqn:Hfind.
    + exists c'. split; [done|].
      apply find_some in Hfind as [_ Hhit]. by apply String.eqb_eq in Hhit.
    + pose proof (find_none _ _ Hfind c Hin) as Hmiss.
      unfold exactName in Hmiss. by rewrite Hname, String.eqb_refl in Hmiss.
  - intros (c & Hfound & Hname). exists c. split; [done|].
    assert (firstHit [exactName (JS.trim (JS.toLowerCase s));
                      exactAlternative (JS.trim (JS.toLowerCase s));
                      partialName (JS.trim (JS.toLowerCase s));
                      partialAlternative (JS.trim (JS.toLowerCase s));
                      fuzzyName (JS.trim (JS.replaceStopwords
                                            (JS.trim (JS.toLowerCase s))))]
              (allCards cs) = Some c) as Hhit by exact Hfound.
    by apply firstHit_Some in Hhit as [Hin _].
Qed.

(** X21. Said by voice: in any state the tracker reaches, hearing "add "
    followed by the name of a catalog card -- a name without white space
    around it that no other card shares up to case, said in any mix of
    upper and lower case -- leaves a card of that name in slot 7 and
    raises the "Added" notification for it. *)
Theorem voice_add_by_name (gs : list Gesture) (c : CardRecord) (s : string) :
  let t := run gs initial in
  In c (allCards (cards t)) →
  JS.trim (name c) = name c →
  (∀ c', In c' (allCards (cards t)) →
         JS.toLowerCase (name c') = JS.toLowerCase (name c) → c' = c) →
  JS.toLowerCase s = JS.toLowerCase (name c) →
  (∃ o, deckContents (fst (onresult ("add " +:+ s) t)) !! 7%nat = Some (Some o) ∧
        name (card o) = name c) ∧
  In (Notification ("Added: " +:+ name c)) (snd (onresult ("add " +:+ s) t)).
Proof.
  intros t Hin Htrim Hunique Hs.
  assert (findBestCardMatch (cards t) (JS.trim (JS.toLowerCase s)) = Some c)
    as Hfound.
  { apply own_name_is_found; try done.
    by rewrite Hs, <- toLowerCase_trim, Htrim, toLowerCase_twice. }
  unfold onresult, processVoiceCommand, addCardByVoice.
  change (JS.toLowerCase ("add " +:+ s)) with ("add " +:+ JS.toLowerCase s).
  change (JS.startsWith ("add " +:+ JS.toLowerCase s) "add ")
    with (JS.startsWith (JS.toLowerCase s) "").
  rewrite startsWith_empty.
  change (JS.substring 4 ("add " +:+ JS.toLowerCase s)) with (JS.toLowerCase s).
  rewrite Hfound. cbn [fst snd]. split.
  - apply selectCard_last_slot, reachable_invariants.
  - cbn. auto.
Qed.

Lemma voice_add_by_name_witness :
  (In archers (allCards (cards (run [CardsLoaded smallCatalog] initial))) ∧
   JS.trim (name archers) = name archers ∧
   JS.toLowerCase "ARCHERS" = JS.toLowerCase (name archers)) ∧
  (∃ o, deckContents (fst (onresult "add ARCHERS"
                             (run [CardsLoaded smallCatalog] initial))) !! 7%nat
          = Some (Some o) ∧
        name (card o) = "Archers") ∧
  In (Notification "Added: Archers")
     (snd (onresult "add ARCHERS" (run [CardsLoaded smallCatalog] initial))).
Proof.
  assert (In archers (allCards smallCatalog)) as Hin by (right; left; reflexivity).
  assert (∀ c', In c' (allCards smallCatalog) →
            JS.toLowerCase (name c') = JS.toLowerCase (name archers) → c' = archers)
    as Hunique.
  { intros c' [<-|[<-|[<-|[]]]] Hname; (done || discriminate). }
  split; [repeat split; done|].
  exact (voice_add_by_name [CardsLoaded smallCatalog] archers "ARCHERS"
           Hin eq_refl Hunique eq_refl).
Defined.

End SpokenText.

(** ** The replacement of standalone words *)

Section Stopwords.

Implicit Types (s r x w : string) (c : ascii) (prev : option ascii).

Lemma append_empty_r s : s +:+ "" = s.
Proof.
  induction s as [|c s IH]; [done|].
  change (String c (s +:+ "") = String c s). by rewrite IH.
Qed.

Lemma append_assoc_string s1 s2 s3 : (s1 +:+ s2) +:+ s3 = s1 +:+ (s2 +:+ s3).
Proof.
  induction s1 as [|c s1 IH]; [done|].
  change (String c ((s1 +:+ s2) +:+ s3) = String c (s1 +:+ (s2 +:+ s3))).
  by rewrite IH.
Qed.

Lemma not_word_not_letter c :
  JS.isWordChar c = false → Ascii.eqb c "t" = false ∧ Ascii.eqb c "a" = false.
Proof.
  intros Hc. split.
  - destruct (Ascii.eqb_spec c "t") as [->|]; [discriminate|done].
  - destruct (Ascii.eqb_spec c "a") as [->|]; [discriminate|done].
Qed.

(** At a character that is no word character no alternative starts. *)
Lemma replaceFrom_other prev c r :
  JS.isWordChar c = false →
  JS.replaceFrom prev 0 (String c r) = String c (JS.replaceFrom (Some c) 0 r).
Proof.
  intros Hc. destruct (not_word_not_letter c Hc) as [Ht Ha].
  cbn [JS.replaceFrom]. unfold JS.stopwordAt, JS.alternativeAt.
  cbn [JS.startsWith]. rewrite Ht, Ha. cbn.
  by destruct (JS.wordBoundary prev (Some c)).
Qed.

(** Inside a word there is no boundary. *)
Lemma replaceFrom_inside prev c r :
  JS.isWord prev = true → JS.isWordChar c = true →
  JS.replaceFrom prev 0 (String c r) = String c (JS.replaceFrom (Some c) 0 r).
Proof.
  intros Hprev Hc. cbn [JS.replaceFrom]. unfold JS.stopwordAt.
  assert (JS.wordBoundary prev (JS.charAt 0 (String c r)) = false) as ->; [|done].
  unfold JS.wordBoundary. cbn. by rewrite Hprev, Hc.
Qed.

Lemma takeWord_cons x c :
  takeWord (String c x) = String c x → JS.isWordChar c = true ∧ takeWord x = x.
Proof.
  cbn. destruct (JS.isWordChar c); [|done]. by intros [= ->].
Qed.

(** For a word [x]: the longest run of word characters at the start of
    [s] is [x] exactly when [s] starts with [x] and no word character
    follows. *)
Lemma takeWord_is x : ∀ s,
  takeWord x = x →
  (takeWord s = x ↔
   JS.startsWith s x = true ∧ JS.isWord (JS.charAt (String.length x) s) = false).
Proof.
  induction x as [|a x IH]; intros s Hx.
  - destruct s as [|c r]; cbn; [done|].
    destruct (JS.isWordChar c); split; (done || by intros []).
  - apply takeWord_cons in Hx as [Ha Hx].
    destruct s as [|c r]; [cbn; split; (done || by intros [])|].
    cbn [JS.startsWith String.length].
    change (JS.charAt (S (String.length x)) (String c r))
      with (JS.charAt (String.length x) r).
    destruct (Ascii.eqb_spec c a) as [->|Hne]; cbn [andb takeWord].
    + rewrite Ha, <- (IH r Hx). split; [by intros [= ->]|by intros ->].
    + split; [|by intros []].
      destruct (JS.isWordChar c); [|done]. by intros [= ? _].
Qed.

Lemma startsWith_charAt x : ∀ s k,
  JS.startsWith s x = true → (k < String.length x)%nat →
  JS.charAt k s = JS.charAt k x.
Proof.
  induction x as [|a x IH]; intros s k Hs Hk; [cbn in Hk; lia|].
  destruct s as [|c r]; [done|]. cbn in Hs.
  apply andb_true_iff in Hs as [Hc Hr]. apply Ascii.eqb_eq in Hc as ->.
  destruct k as [|k]; [done|]. cbn in Hk.
  apply (IH r k Hr). lia.
Qed.

Lemma word_charAt x : ∀ k,
  takeWord x = x → (k < String.length x)%nat → JS.isWord (JS.charAt k x) = true.
Proof.
  induction x as [|a x IH]; intros k Hx Hk; [cbn in Hk; lia|].
  apply takeWord_cons in Hx as [Ha Hx].
  destruct k as [|k]; [done|]. cbn in Hk. apply (IH k Hx). lia.
Qed.

(** An alternative of the group matches exactly the run that equals it. *)
Lemma alternativeAt_takeWord x a s :
  takeWord (String a x) = String a x →
  JS.alternativeAt (String a x) s =
  if String.eqb (takeWord s) (String a x)
  then Some (String.length (String a x)) else None.
Proof.
  intros Hx. pose proof (takeWord_is (String a x) s Hx) as Hiff.
  unfold JS.alternativeAt. cbn [String.length] in *.
  destruct (JS.startsWith s (String a x)) eqn:Hs; cbn [andb].
  - rewrite (startsWith_charAt (String a x) s (String.length x) Hs)
      by (cbn; lia).
    unfold JS.wordBoundary.
    rewrite (word_charAt (String a x) (String.length x) Hx) by (cbn; lia).
    destruct (JS.isWord (JS.charAt (S (String.length x)) s)) eqn:Hnext; cbn.
    + destruct (String.eqb_spec (takeWord s) (String a x)) as [Heq|]; [|done].
      apply Hiff in Heq as [_ ?]. done.
    + destruct (String.eqb_spec (takeWord s) (String a x)) as [|Hne]; [done|].
      exfalso. apply Hne, Hiff. done.
  - destruct (String.eqb_spec (takeWord s) (String a x)) as [Heq|]; [|done].
    apply Hiff in Heq as [? _]. done.
Qed.

(** At the start of a word the expression matches the whole word or
    nothing. *)
Lemma stopwordAt_word_start prev c r :
  JS.isWord prev = false → JS.isWordChar c = true →
  JS.stopwordAt prev (String c r) =
  if isStopword (takeWord (String c r))
  then Some (String.length (takeWord (String c r))) else None.
Proof.
  intros Hprev Hc. unfold JS.stopwordAt.
  assert (JS.wordBoundary prev (JS.charAt 0 (String c r)) = true) as ->.
  { unfold JS.wordBoundary. cbn. by rewrite Hprev, Hc. }
  rewrite (alternativeAt_takeWord "he" "t"), (alternativeAt_takeWord "" "a"),
    (alternativeAt_takeWord "n" "a") by done.
  unfold isStopword.
  destruct (String.eqb_spec (takeWord (String c r)) "the") as [->|_]; [done|].
  destruct (String.eqb_spec (takeWord (String c r)) "a") as [->|_]; [done|].
  destruct (String.eqb_spec (takeWord (String c r)) "an") as [->|_]; done.
Qed.

(** Dropping a matched word leads to what follows the word. *)
Lemma replaceFrom_skip r : ∀ prev,
  JS.replaceFrom prev (String.length (takeWord r)) r =
  match dropWord r with
  | EmptyString => EmptyString
  | String c r' => String c (JS.replaceFrom (Some c) 0 r')
  end.
Proof.
  induction r as [|c r IH]; intros prev; [done|].
  cbn [takeWord dropWord]. destruct (JS.isWordChar c) eqn:Hc.
  - cbn [String.length JS.replaceFrom]. apply IH.
  - cbn [String.length]. by apply replaceFrom_other.
Qed.

(** After a word character the rest of the word is copied. *)
Lemma replaceFrom_copy s : ∀ prev,
  JS.isWord prev = true →
  JS.replaceFrom prev 0 s =
  takeWord s +:+
  match dropWord s with
  | EmptyString => EmptyString
  | String c r' => String c (JS.replaceFrom (Some c) 0 r')
  end.
Proof.
  induction s as [|c r IH]; intros prev Hprev; [done|].
  cbn [takeWord dropWord]. destruct (JS.isWordChar c) eqn:Hc.
  - rewrite replaceFrom_inside, (IH (Some c)) by (done || by cbn).
    reflexivity.
  - by apply replaceFrom_other.
Qed.

(** From a position that follows no word character: the first run is
    kept or removed as a whole. *)
Lemma replaceFrom_run prev s :
  JS.isWord prev = false →
  JS.replaceFrom prev 0 s =
  keepWord (takeWord s) +:+
  match dropWord s with
  | EmptyString => EmptyString
  | String c r' => String c (JS.replaceFrom (Some c) 0 r')
  end.
Proof.
  intros Hprev. destruct s as [|c r]; [done|].
  destruct (JS.isWordChar c) eqn:Hc.
  - cbn [JS.replaceFrom]. rewrite stopwordAt_word_start by done.
    cbn [takeWord dropWord]. rewrite Hc. unfold keepWord.
    destruct (isStopword (String c (takeWord r))).
    + cbn [String.length String.append]. apply replaceFrom_skip.
    + rewrite (replaceFrom_copy r (Some c)) by (by cbn). reflexivity.
  - cbn [takeWord dropWord]. rewrite Hc. by apply replaceFrom_other.
Qed.

Lemma stripRuns_run s : ∀ w,
  stripRuns w s =
  keepWord (w +:+ takeWord s) +:+
  match dropWord s with
  | EmptyString => EmptyString
  | String c r' => String c (stripRuns "" r')
  end.
Proof.
  induction s as [|c r IH]; intros w.
  - cbn. by rewrite !append_empty_r.
  - cbn [stripRuns takeWord dropWord]. destruct (JS.isWordChar c).
    + rewrite IH, append_assoc_string. done.
    + by rewrite append_empty_r.
Qed.

Lemma dropWord_head s c r : dropWord s = String c r → JS.isWordChar c = false.
Proof.
  induction s as [|c' s IH]; [done|].
  cbn. destruct (JS.isWordChar c') eqn:Hc; [done|]. by intros [= <- _].
Qed.

Lemma dropWord_length s : (String.length (dropWord s) ≤ String.length s)%nat.
Proof.
  induction s as [|c s IH]; [done|].
  cbn. destruct (JS.isWordChar c); cbn; lia.
Qed.

Lemma replaceFrom_stripRuns n : ∀ s prev,
  (String.length s ≤ n)%nat → JS.isWord prev = false →
  JS.replaceFrom prev 0 s = stripRuns "" s.
Proof.
  induction n as [|n IH]; intros s prev Hlen Hprev.
  - destruct s; [done|cbn in Hlen; lia].
  - rewrite replaceFrom_run, stripRuns_run by done.
    change ("" +:+ takeWord s) with (takeWord s). f_equal.
    destruct (dropWord s) as [|c r] eqn:Hdrop; [done|].
    f_equal. apply IH.
    + pose proof (dropWord_length s) as Hle. rewrite Hdrop in Hle.
      cbn in Hle. lia.
    + cbn. by eapply dropWord_head.
Qed.

(** X20. The replacement [s.replace(/\b(the|a|an)\b/g, '')] takes out of
    any text exactly the maximal runs of letters, digits and underscores
    that read "the", "a" or "an", and leaves every other character where
    it is. *)
Theorem replaceStopwords_removes_whole_runs (s : string) :
  JS.replaceStopwords s = removeStopwordRuns s.
Proof. by apply (replaceFrom_stripRuns (String.length s)). Qed.

End Stopwords.
